(** * Gemini 2.5 TTS notebook: chunker, cost estimator and audio assembler

    A shallow embedding of the three utility functions of
    [notebooks/exploring_gemini_25_tts.ipynb]:

    - [split_text_to_chunks]  (fixed-width text chunker),
    - [cost_estimator]        (cost estimate in binary64 arithmetic),
    - [save_mp3_file]         (PCM assembly before the MP3 export).

    Python values are modelled as follows: [int] is [Z]; [str] is a list of
    Unicode code points; [bytes] is a list of [byte]; [float] is the
    primitive binary64 type; the [while] loop of the chunker is iterated
    with explicit fuel, so that a run that never leaves the loop is visible
    as [None] for every amount of fuel. *)

From Stdlib Require Import ZArith NArith Lia Bool String Ascii List.
From Stdlib.Strings Require Import Byte.
From Stdlib Require Import Floats Uint63.
From Stdlib Require Import DecimalString.
Import ListNotations.

Open Scope Z_scope.

(** ** Python strings *)

Module PyStr.

(** A character is a Unicode code point, a [str] a sequence of them. *)
Definition char := N.
Definition str := list char.

(** [len(s)] *)
Definition len {A : Type} (s : list A) : Z := Z.of_nat (List.length s).

(** [c.isspace()] for one character: the table behind
    [Py_UNICODE_ISSPACE], which [str.rstrip()] and [str.split()] use. *)
Definition isspace (c : char) : bool :=
  ( (9 <=? c) && (c <=? 13)
    || (28 <=? c) && (c <=? 32)
    || (c =? 133) || (c =? 160) || (c =? 5760)
    || (8192 <=? c) && (c <=? 8202)
    || (c =? 8232) || (c =? 8233) || (c =? 8239)
    || (c =? 8287) || (c =? 12288) )%N.

(** A slice bound as Python normalises it for a sequence of length [n]:
    a negative bound counts from the end, and both are clamped. *)
Definition clamp_index (n i : Z) : Z :=
  if i <? 0 then Z.max (i + n) 0 else Z.min i n.

(** [s[i:j]] *)
Definition slice {A : Type} (s : list A) (i j : Z) : list A :=
  let lo := clamp_index (len s) i in
  let hi := clamp_index (len s) j in
  firstn (Z.to_nat (hi - lo)) (skipn (Z.to_nat lo) s).

(** [s.rstrip()]: the longest prefix that does not end in whitespace. *)
Fixpoint rstrip (s : str) : str :=
  match s with
  | [] => []
  | c :: s' =>
      match rstrip s' with
      | [] => if isspace c then [] else [c]
      | r => c :: r
      end
  end.

(** [s.split()]: the maximal runs of non-whitespace characters.  [w] holds
    the characters of the word being scanned, last one first. *)
Definition flush (w : str) (ws : list str) : list str :=
  match w with
  | [] => ws
  | _ => rev w :: ws
  end.

Fixpoint split_from (w : str) (s : str) : list str :=
  match s with
  | [] => flush w []
  | c :: s' =>
      if isspace c then flush w (split_from [] s')
      else split_from (c :: w) s'
  end.

Definition split (s : str) : list str := split_from [] s.

(** [sep.join(parts)] *)
Fixpoint join {A : Type} (sep : list A) (parts : list (list A)) : list A :=
  match parts with
  | [] => []
  | [p] => p
  | p :: ps => p ++ sep ++ join sep ps
  end.

(** [s * n]: [n] copies of [s], none when [n] is not positive. *)
Definition str_mul (s : str) (n : Z) : str := concat (repeat s (Z.to_nat n)).

(** A literal: the code points of an ASCII string. *)
Definition of_string (s : string) : str :=
  map N_of_ascii (list_ascii_of_string s).

End PyStr.

Import PyStr.

(** ** The chunker *)

(** The marker appended to every chunk, ["\n\n"]. *)
Definition marker : str := [10%N; 10%N].

(** The variables the [while] loop of [split_text_to_chunks] updates. *)
Record loop_state := { start : Z; chunks : list str }.

(** [start < len(text)] *)
Definition loop_cond (text : str) (st : loop_state) : bool :=
  start st <? len text.

(** One pass through the loop body. *)
Definition loop_body (text : str) (max_chars : Z) (st : loop_state)
  : loop_state :=
  let end_ := Z.min (start st + max_chars) (len text) in
  let chunk := rstrip (slice text (start st) end_) ++ marker in
  {| start := end_; chunks := chunks st ++ [chunk] |}.

(** The loop, run for at most [fuel] tests of its condition. *)
Fixpoint while_loop (fuel : nat) (text : str) (max_chars : Z)
  (st : loop_state) : option loop_state :=
  match fuel with
  | O => None
  | S fuel' =>
      if loop_cond text st
      then while_loop fuel' text max_chars (loop_body text max_chars st)
      else Some st
  end.

Definition split_text_to_chunks (fuel : nat) (text : str)
  (max_tokens token_chars : Z) : option (list str) :=
  let max_chars := max_tokens * token_chars in
  option_map chunks
    (while_loop fuel text max_chars {| start := 0; chunks := [] |}).

(** [returns text n tc out]: the call returns the list [out]. *)
Definition returns (text : str) (max_tokens token_chars : Z)
  (out : list str) : Prop :=
  exists fuel, split_text_to_chunks fuel text max_tokens token_chars = Some out.

(** What the chunker is meant to compute, as a relation: the text is cut
    into consecutive pieces of [n] characters (the last one may be shorter),
    each stripped on the right and followed by the marker. *)
Inductive chunks_of (n : nat) : str -> list str -> Prop :=
| chunks_nil : chunks_of n [] []
| chunks_cons : forall rest out,
    rest <> [] ->
    chunks_of n (skipn n rest) out ->
    chunks_of n rest ((rstrip (firstn n rest) ++ marker) :: out).

(** ** The cost estimator *)

(** A Python [float] is a binary64 number; [float_of_int] is the conversion
    Python applies to an [int] operand of a float operation.  It is exact
    below [2^53] and rounds to nearest even above; the [int]s converted here
    are lengths, which CPython keeps below [2^63]. *)
Definition float_of_int (z : Z) : float := of_uint63 (Uint63.of_Z z).

(** [a / b] on two [int]s: the quotient rounded once.  For the divisors of
    this notebook, [4] and [2], dividing the converted operands rounds the
    same way. *)
Definition int_truediv (a b : Z) : float :=
  (float_of_int a / float_of_int b)%float.

(** The dictionary [cost_estimator] returns, in the order of its literal. *)
Definition dict := list (string * float).

Fixpoint getitem (d : dict) (key : string) : option float :=
  match d with
  | [] => None
  | (k, v) :: d' => if String.eqb k key then Some v else getitem d' key
  end.

Definition INPUT_TOKEN_CHARS : Z := 4.
Definition INPUT_COST_PER_MILLION : float := 0.5%float.
Definition OUTPUT_TOKENS_PER_SECOND : Z := 32.
Definition WORDS_PER_SECOND : Z := 2.
Definition OUTPUT_COST_PER_MILLION : Z := 10.

Definition cost_estimator (text : str) : dict :=
  let num_chars := len text in
  let num_input_tokens := int_truediv num_chars INPUT_TOKEN_CHARS in
  let input_cost :=
    (num_input_tokens / float_of_int 1000000 * INPUT_COST_PER_MILLION)%float in
  let num_words := len (split text) in
  let audio_seconds := int_truediv num_words WORDS_PER_SECOND in
  let num_output_tokens :=
    (audio_seconds * float_of_int OUTPUT_TOKENS_PER_SECOND)%float in
  let output_cost :=
    (num_output_tokens / float_of_int 1000000
     * float_of_int OUTPUT_COST_PER_MILLION)%float in
  let total_cost := (input_cost + output_cost)%float in
  [("input"%string, input_cost); ("output"%string, output_cost);
   ("total"%string, total_cost)].

(** ** The audio assembler *)

Definition bytes := list byte.

(** The argument [pcm : Union[List[bytes], bytes]]. *)
Inductive pcm_arg :=
| PcmBytes (b : bytes)
| PcmList (parts : list bytes).

(** A segment of [pydub]: its raw data [_data] and its audio parameters. *)
Record AudioSegment := {
  data : bytes;
  sample_width : Z;
  frame_rate : Z;
  channels : Z
}.

(** The constructor of [pydub] widens 24-bit samples to 32 bits: before
    each three bytes [b0 b1 b2] it writes one padding byte, [0xFF] when
    [b2 > 0x7f] and [0x00] otherwise. *)
Fixpoint to_32_bit (data : bytes) : bytes :=
  match data with
  | b0 :: b1 :: b2 :: rest =>
      (if (127 <? Byte.to_N b2)%N then xff else x00)
        :: b0 :: b1 :: b2 :: to_32_bit rest
  | _ => []
  end.

(** The constructor of [pydub] as [save_mp3_file] calls it,
    [AudioSegment(data=..., sample_width=..., frame_rate=..., channels=...)],
    with [None] when it raises.  It evaluates
    [len(data) % (sample_width * channels) != 0], which raises
    [ZeroDivisionError] on a zero product, and raises [ValueError] when the
    length is not a multiple of the product.  A segment of sample width 3 is
    stored with sample width 4, its data widened by [to_32_bit]; there the
    constructor reads [data[0]] first, which raises [IndexError] on empty
    data. *)
Definition AudioSegment_init (data : bytes)
  (sample_width frame_rate channels : Z) : option AudioSegment :=
  if sample_width * channels =? 0 then None
  else if negb (len data mod (sample_width * channels) =? 0) then None
  else if sample_width =? 3 then
    match data with
    | [] => None
    | _ :: _ =>
        Some {| data := to_32_bit data; sample_width := 4;
                frame_rate := frame_rate; channels := channels |}
    end
  else
    Some {| data := data; sample_width := sample_width;
            frame_rate := frame_rate; channels := channels |}.

(** The call [audio.export(filename, format="mp3")], which hands the segment
    to the encoder. *)
Record export_call := {
  exported : AudioSegment;
  out_file : string;
  format : string
}.

(** The result is the call of [export] the function makes, or [None] when
    the constructor raises: the function then ends with that exception and
    [export] is not reached. *)
Definition save_mp3_file (filename : string) (pcm : pcm_arg)
  (channels rate sample_width : Z) : option export_call :=
  let pcm :=
    match pcm with
    | PcmList parts => join [] parts
    | PcmBytes b => b
    end in
  match AudioSegment_init pcm sample_width rate channels with
  | Some audio =>
      Some {| exported := audio; out_file := filename; format := "mp3" |}
  | None => None
  end.

(** ** The cells that call the service and save the audio *)

(** [str(n)] for an [int]: its decimal digits, with a minus sign below
    zero. *)
Definition str_of_int (n : Z) : str :=
  of_string (NilZero.string_of_int (Z.to_int n)).

Definition PROMPT_FOR_READING : str :=
  of_string "Read in an even tone with a North London accent.".

(** The keyword arguments of [client.models.generate_content]. *)
Record request := {
  model : string;
  contents : str;
  response_modalities : list string;
  voice_name : string
}.

(** What the cells do to the outside: a line printed, a request sent to the
    service, a pause, a file exported. *)
Inductive event :=
| Printed (line : str)
| Requested (r : request)
| Slept (seconds : Z)
| Exported (call : export_call).

(** The request the loop sends for one chunk; its contents are
    [f"{PROMPT_FOR_READING}: {chunk}"]. *)
Definition request_for (chunk : str) : request :=
  {| model := "gemini-2.5-flash-preview-tts";
     contents := PROMPT_FOR_READING ++ of_string ": " ++ chunk;
     response_modalities := ["AUDIO"%string];
     voice_name := "Algieba" |}.

(** [f"Generating TTS for chunk: {idx}"] *)
Definition progress_line (idx : Z) : str :=
  of_string "Generating TTS for chunk: " ++ str_of_int idx.

(** The name of the output file, as the notebook leaves it. *)
Definition file_name : string := "<FILE>.mp3".

Section Notebook.

(** The service is outside the repository.  [generate_content s r] is the
    call on a service in state [s] together with the access
    [response.candidates[0].content.parts[0].inline_data.data]: the new
    state of the service, and the buffer, or [None] when the call or the
    access raises.  The data of a response are taken to be [bytes], the
    type [save_mp3_file] declares for its buffers. *)
Variable api : Type.
Variable generate_content : api -> request -> api * option bytes.

(** The state of the service and what has happened so far. *)
Record world := { service : api; trace : list event }.

(** A computation that changes the world and returns a value, or raises
    (nothing in the notebook catches an exception). *)
Definition M (A : Type) : Type := world -> world * option A.

Definition ret {A : Type} (a : A) : M A := fun w => (w, Some a).

Definition bind {A B : Type} (m : M A) (k : A -> M B) : M B :=
  fun w =>
    match m w with
    | (w', Some a) => k a w'
    | (w', None) => (w', None)
    end.

Notation "x <- m ;; k" := (bind m (fun x => k))
  (at level 61, m at next level, right associativity).
Notation "m ;; k" := (bind m (fun _ => k))
  (at level 61, right associativity).

Definition emit (e : event) : M unit :=
  fun w => ({| service := service w; trace := trace w ++ [e] |}, Some tt).

(** [print(line)] *)
Definition print (line : str) : M unit := emit (Printed line).

(** [time.sleep(seconds)] *)
Definition sleep (seconds : Z) : M unit := emit (Slept seconds).

(** The call to the service and the access to the audio of its response. *)
Definition generate (r : request) : M bytes :=
  fun w =>
    let (s', d) := generate_content (service w) r in
    ({| service := s'; trace := trace w ++ [Requested r] |}, d).

(** [for idx, chunk in enumerate(content_by_chunks): ...], from index
    [idx] on, with the responses collected so far. *)
Fixpoint for_each_chunk (idx : Z) (content_by_chunks : list str)
  (tts_responses : list bytes) : M (list bytes) :=
  match content_by_chunks with
  | [] => ret tts_responses
  | chunk :: rest =>
      print (progress_line idx) ;;
      d <- generate (request_for chunk) ;;
      let tts_responses := tts_responses ++ [d] in
      sleep 120 ;;
      for_each_chunk (idx + 1) rest tts_responses
  end.

(** The cell that generates the speech: [tts_responses = []], then the
    loop.  (The line that prints the estimated costs before the loop is
    left out: it formats floats in decimal.) *)
Definition generate_speech (content_by_chunks : list str) : M (list bytes) :=
  for_each_chunk 0 content_by_chunks [].

(** An exception that nothing catches: the run ends, the world stays as it
    is. *)
Definition raise {A : Type} : M A := fun w => (w, None).

(** The last cell: [save_mp3_file(file_name, tts_responses)], with the
    defaults of [save_mp3_file] for the audio format.  When
    [save_mp3_file] raises, so does the cell, and no file is exported. *)
Definition save_cell (tts_responses : list bytes) : M unit :=
  match save_mp3_file file_name (PcmList tts_responses) 1 24000 2 with
  | Some call => emit (Exported call)
  | None => raise
  end.

(** The two cells, one after the other. *)
Definition speech_to_file (content_by_chunks : list str) : M unit :=
  tts_responses <- generate_speech content_by_chunks ;;
  save_cell tts_responses.

(** The service on its own: the answers to a sequence of requests, up to
    the first one that fails. *)
Fixpoint serve (s : api) (rs : list request) : api * option (list bytes) :=
  match rs with
  | [] => (s, Some [])
  | r :: rs' =>
      match generate_content s r with
      | (s', Some d) =>
          match serve s' rs' with
          | (s'', Some ds) => (s'', Some (d :: ds))
          | (s'', None) => (s'', None)
          end
      | (s', None) => (s', None)
      end
  end.

End Notebook.

Arguments service {api} _.
Arguments trace {api} _.
Arguments Build_world {api} _ _.

(** What one pass of the loop adds to the trace when the call succeeds. *)
Definition pass_events (idx : Z) (chunk : str) : list event :=
  [Printed (progress_line idx); Requested (request_for chunk); Slept 120].

(** The passes over the chunks, numbered from [idx]. *)
Fixpoint passes_events (idx : Z) (chunks : list str) : list event :=
  match chunks with
  | [] => []
  | chunk :: rest => pass_events idx chunk ++ passes_events (idx + 1) rest
  end.

(** The seconds slept, the requests sent and the files exported in a
    trace. *)
Definition seconds_slept (t : list event) : Z :=
  fold_right (fun e acc => match e with Slept n => n + acc | _ => acc end) 0 t.

Definition requests_of (t : list event) : list request :=
  flat_map (fun e => match e with Requested r => [r] | _ => [] end) t.

Definition exports_of (t : list event) : list export_call :=
  flat_map (fun e => match e with Exported c => [c] | _ => [] end) t.

(** ** Notions used to state the properties of the chunker *)

(** The characters [rstrip] and [split] keep. *)
Definition nonspace (c : char) : bool := negb (isspace c).

(** What a chunk is before the marker is appended. *)
Definition body_of (c body : str) : Prop :=
  c = body ++ marker /\ rstrip body = body.

(** The character at index [i], if there is one, is whitespace. *)
Definition space_at (text : str) (i : nat) : bool :=
  match nth_error text i with
  | Some c => isspace c
  | None => false
  end.

(** No cut of width [n] falls inside a word of [rest]: at every multiple of
    [n] inside the text, the character before the cut or the one after it
    is whitespace. *)
Definition boundary_ok (n : nat) (rest : str) : Prop :=
  forall k : nat, (1 <= k)%nat -> (k * n < List.length rest)%nat ->
    space_at rest (k * n - 1) = true \/ space_at rest (k * n) = true.

(** The same, as a test that runs. *)
Definition boundary_okb (n : nat) (rest : str) : bool :=
  forallb
    (fun k => negb (k * n <? List.length rest)%nat
              || space_at rest (k * n - 1) || space_at rest (k * n))
    (seq 1 (List.length rest)).

(** Whitespace normalisation: the words of the text, one space between
    them, as [" ".join(s.split())] computes it. *)
Definition ws_normalize (s : str) : str := join [32%N] (split s).

(** The number of whitespace-delimited words, counted at the places where a
    word starts: a non-whitespace character at the start of the text or
    after a whitespace character. *)
Fixpoint word_starts (after_space : bool) (s : str) : nat :=
  match s with
  | [] => 0
  | c :: s' =>
      if isspace c then word_starts true s'
      else ((if after_space then 1 else 0) + word_starts false s')%nat
  end.

Definition count_words (s : str) : nat := word_starts true s.

(** ** Notions used to state the properties of the cost estimator *)

(** A binary64 number that is not NaN and not below zero, on the
    specification side of the primitive floats. *)
Definition SFnonneg (x : spec_float) : bool :=
  match x with
  | S754_nan => false
  | S754_zero _ => true
  | S754_infinity s | S754_finite s _ _ => negb s
  end.

(** A finite number above zero. *)
Definition SFpositive (x : spec_float) : bool :=
  match x with
  | S754_finite false _ _ => true
  | _ => false
  end.

(** Round half to even of the quotient [a / b], for [b > 0]. *)
Definition rne_div (a b : Z) : Z :=
  let q := a / b in
  match 2 * (a mod b) ?= b with
  | Lt => q
  | Eq => if Z.even q then q else q + 1
  | Gt => q + 1
  end.

(** A shift record of the rounding algorithm holds the quotient [a / b]:
    its mantissa is the integer part, its round bit says whether the
    remainder is at least one half, its sticky bit whether anything is left
    beside that. *)
Definition represents (mrs : shr_record) (a b : Z) : Prop :=
  0 < b /\ 0 <= a /\ shr_m mrs = a / b
  /\ shr_r mrs = (b <=? 2 * (a mod b))
  /\ shr_s mrs = negb ((a mod b =? 0) || (2 * (a mod b) =? b)).

(** The binary64 number nearest to [(a / b) * 2^e], ties to even, for a
    quotient of at least 53 binary digits and away from the ends of the
    exponent range: the quotient is rounded to 53 digits, and a mantissa
    that reaches [2^53] moves to the next binade. *)
Definition rnd (a b e : Z) : spec_float :=
  let d := Zdigits2 (a / b) in
  let m := rne_div a (b * 2 ^ (d - 53)) in
  if m =? 2 ^ 53 then S754_finite false (Z.to_pos (2 ^ 52)) (e + d - 52)
  else S754_finite false (Z.to_pos m) (e + d - 53).

(** A positive normal number with its exponent between [lo] and [hi]. *)
Definition normal (lo hi : Z) (x : spec_float) : Prop :=
  exists m e, x = S754_finite false m e
              /\ 2 ^ 52 <= Zpos m < 2 ^ 53 /\ lo <= e <= hi.

(** Zero, or such a normal number. *)
Definition zero_or_normal (lo hi : Z) (x : spec_float) : Prop :=
  x = S754_zero false \/ normal lo hi x.

(** The value of a number in units of [2^lo]. *)
Definition val (lo : Z) (x : spec_float) : Z :=
  match x with
  | S754_finite false m e => Zpos m * 2 ^ (e - lo)
  | _ => 0
  end.

(** Two floats in order, both zero or normal with exponents between [lo]
    and [hi]. *)
Definition ordered (lo hi : Z) (x1 x2 : float) : Prop :=
  SFleb (Prim2SF x1) (Prim2SF x2) = true
  /\ zero_or_normal lo hi (Prim2SF x1)
  /\ zero_or_normal lo hi (Prim2SF x2).

(** ** Sanity checks of the embedding on small inputs *)

Example rstrip_trailing :
  rstrip (of_string "ab  c 	 ") = of_string "ab  c".
Proof. reflexivity. Qed.

Example split_words :
  split (of_string "  hello   world ") = [of_string "hello"; of_string "world"].
Proof. reflexivity. Qed.

Example slice_negative :
  slice (of_string "abcdef") (-4) (-1) = of_string "cde".
Proof. reflexivity. Qed.

Example chunks_small :
  split_text_to_chunks 10 (of_string "ab cd e") 1 3
  = Some [of_string "ab" ++ marker; of_string "cd" ++ marker;
          of_string "e" ++ marker].
Proof. reflexivity. Qed.

Example chunks_out_of_fuel :
  split_text_to_chunks 3 (of_string "ab cd e") 1 3 = None.
Proof. reflexivity. Qed.

Example cost_of_empty_text :
  cost_estimator []
  = [("input"%string, 0%float); ("output"%string, 0%float);
     ("total"%string, 0%float)].
Proof. reflexivity. Qed.

Example rne_div_ties :
  rne_div 5 2 = 2 /\ rne_div 7 2 = 4 /\ rne_div 7 3 = 2 /\ rne_div 8 3 = 3.
Proof. repeat split. Qed.

(** [1 / 3] in binary64: the mantissas of [1.0] and [3.0] are [2^52] and
    [3 * 2^51], their exponents [-52] and [-51]. *)
Example rnd_one_third :
  Prim2SF (1 / 3)%float
  = rnd (2 ^ 52 * 2 ^ 53) (3 * 2 ^ 51) (-52 - -51 - 53).
Proof. vm_compute. reflexivity. Qed.

(** [3 * 10] and [2^53 + 1] as a float, where rounding drops the last bit. *)
Example rnd_product_and_conversion :
  Prim2SF (3 * 10)%float = rnd (3 * 2 ^ 51 * (5 * 2 ^ 50)) 1 (-51 + -49)
  /\ Prim2SF (float_of_int (2 ^ 53 + 1)) = rnd ((2 ^ 53 + 1) * 2 ^ 53) 1 (-53)
  /\ float_of_int (2 ^ 53 + 1) = float_of_int (2 ^ 53).
Proof. vm_compute. repeat split. Qed.

(** ** Slices and strips *)

Lemma len_nonneg {A : Type} (s : list A) : 0 <= len s.
Proof. unfold len. lia. Qed.

Lemma len_app {A : Type} (s t : list A) : len (s ++ t) = len s + len t.
Proof. unfold len. rewrite length_app. lia. Qed.

Lemma clamp_index_inside (n i : Z) : 0 <= i <= n -> clamp_index n i = i.
Proof.
  intros H. unfold clamp_index.
  destruct (Z.ltb_spec i 0); lia.
Qed.

(** Inside the text, the slice the loop takes is the next [max_chars]
    characters of what is left. *)
Lemma slice_window (text : str) (i mc : Z) :
  0 <= i <= len text -> 0 <= mc ->
  slice text i (Z.min (i + mc) (len text))
  = firstn (Z.to_nat mc) (skipn (Z.to_nat i) text).
Proof.
  intros Hi Hmc. unfold slice.
  rewrite !clamp_index_inside by lia.
  destruct (Z.le_ge_cases (i + mc) (len text)) as [Hle | Hge].
  - rewrite Z.min_l by lia. f_equal. lia.
  - rewrite Z.min_r by lia.
    rewrite !firstn_all2; trivial; rewrite length_skipn; unfold len in *; lia.
Qed.

Lemma rstrip_length (s : str) : (List.length (rstrip s) <= List.length s)%nat.
Proof.
  induction s as [| c s IH]; simpl; [lia |].
  destruct (rstrip s); [destruct (isspace c) |]; simpl in *; lia.
Qed.

Lemma rstrip_idem (s : str) : rstrip (rstrip s) = rstrip s.
Proof.
  induction s as [| c s IH]; simpl; trivial.
  destruct (rstrip s) as [| d r] eqn:E.
  - destruct (isspace c) eqn:Ec; simpl; trivial. now rewrite Ec.
  - change (rstrip (c :: d :: r)) with
      (match rstrip (d :: r) with
       | [] => if isspace c then [] else [c]
       | x => c :: x
       end).
    now rewrite IH.
Qed.

Lemma filter_nonspace_rstrip (s : str) :
  filter nonspace (rstrip s) = filter nonspace s.
Proof.
  induction s as [| c s IH]; cbn [rstrip filter]; trivial.
  destruct (rstrip s) as [| d r] eqn:E.
  - rewrite <- IH. unfold nonspace.
    destruct (isspace c) eqn:Ec; cbn [filter negb]; rewrite ?Ec; reflexivity.
  - rewrite <- IH. reflexivity.
Qed.

(** ** The loop of the chunker *)

(** Fuel only bounds the number of iterations: a run that ends with some
    fuel ends in the same state with more. *)
Lemma while_loop_more_fuel (text : str) (mc : Z) (fuel : nat) :
  forall (fuel' : nat) (st st' : loop_state),
    while_loop fuel text mc st = Some st' ->
    (fuel <= fuel')%nat ->
    while_loop fuel' text mc st = Some st'.
Proof.
  induction fuel as [| fuel IH]; intros fuel' st st' Hrun Hle; simpl in Hrun.
  - discriminate.
  - destruct fuel' as [| fuel']; [lia |]. simpl.
    destruct (loop_cond text st); trivial.
    apply IH; [assumption | lia].
Qed.

Lemma returns_deterministic (text : str) (n tc : Z) (out out' : list str) :
  returns text n tc out -> returns text n tc out' -> out = out'.
Proof.
  unfold returns, split_text_to_chunks.
  intros [f Hf] [f' Hf'].
  destruct (while_loop f _ _ _) as [st |] eqn:E; [| discriminate].
  destruct (while_loop f' _ _ _) as [st' |] eqn:E'; [| discriminate].
  apply while_loop_more_fuel with (fuel' := Nat.max f f') in E; [| lia].
  apply while_loop_more_fuel with (fuel' := Nat.max f f') in E'; [| lia].
  simpl in Hf, Hf'. congruence.
Qed.

(** With a positive width every pass moves [start] forward, and never past
    the end of the text. *)
Lemma loop_body_progress (text : str) (mc : Z) (st : loop_state) :
  1 <= mc -> loop_cond text st = true ->
  start st < start (loop_body text mc st) <= len text.
Proof.
  unfold loop_cond, loop_body. intros Hmc Hc. simpl.
  apply Z.ltb_lt in Hc. lia.
Qed.

(** With a width that is not positive no pass moves [start] forward. *)
Lemma loop_body_stuck (text : str) (mc : Z) (st : loop_state) :
  mc <= 0 -> loop_cond text st = true ->
  loop_cond text (loop_body text mc st) = true.
Proof.
  unfold loop_cond, loop_body. intros Hmc Hc. simpl.
  apply Z.ltb_lt in Hc. apply Z.ltb_lt. lia.
Qed.

Lemma while_loop_stuck (text : str) (mc : Z) (fuel : nat) :
  mc <= 0 -> forall st, loop_cond text st = true ->
  while_loop fuel text mc st = None.
Proof.
  intros Hmc. induction fuel as [| fuel IH]; intros st Hc; simpl; trivial.
  rewrite Hc. apply IH. now apply loop_body_stuck.
Qed.

Lemma skipn_window (text : str) (i mc : Z) :
  0 <= i <= len text -> 0 <= mc ->
  skipn (Z.to_nat mc) (skipn (Z.to_nat i) text)
  = skipn (Z.to_nat (Z.min (i + mc) (len text))) text.
Proof.
  intros Hi Hmc. rewrite skipn_skipn.
  destruct (Z.le_ge_cases (i + mc) (len text)) as [Hle | Hge].
  - rewrite Z.min_l by lia. f_equal. lia.
  - rewrite Z.min_r by lia.
    rewrite !skipn_all2; trivial; unfold len in *; lia.
Qed.

(** The loop computes [chunks_of]: started inside the text with enough fuel
    for the characters that are left, it ends, having appended the chunks
    of the rest of the text. *)
Lemma while_loop_chunks_of (text : str) (mc : Z) :
  1 <= mc ->
  forall (fuel : nat) (st : loop_state),
    0 <= start st <= len text ->
    len text - start st < Z.of_nat fuel ->
    exists out,
      while_loop fuel text mc st
      = Some {| start := len text; chunks := chunks st ++ out |}
      /\ chunks_of (Z.to_nat mc) (skipn (Z.to_nat (start st)) text) out.
Proof.
  intros Hmc. induction fuel as [| fuel IH]; intros st Hst Hfuel.
  - lia.
  - simpl. destruct (loop_cond text st) eqn:Hc.
    + destruct (loop_body_progress text mc st Hmc Hc) as [Hlt Hle].
      destruct (IH (loop_body text mc st)) as [out [Hrun Hout]]; [lia | lia |].
      exists ((rstrip (slice text (start st)
                        (Z.min (start st + mc) (len text))) ++ marker) :: out).
      split.
      * rewrite Hrun. simpl. now rewrite <- app_assoc.
      * rewrite slice_window by lia. constructor.
        -- intros E. apply (f_equal (@List.length _)) in E.
           rewrite length_skipn in E. simpl in E.
           unfold loop_cond, len in *. apply Z.ltb_lt in Hc. lia.
        -- rewrite skipn_window by lia. exact Hout.
    + unfold loop_cond in Hc. apply Z.ltb_ge in Hc.
      assert (start st = len text) as E by lia.
      exists []. rewrite app_nil_r. split.
      * destruct st as [s c]. simpl in *. now subst.
      * rewrite E. unfold len. rewrite Nat2Z.id, skipn_all. constructor.
Qed.

(** The chunker as a whole: for a positive width, one test of the loop
    condition per character and one more are enough. *)
Lemma split_text_to_chunks_spec (text : str) (n tc : Z) :
  1 <= n * tc ->
  exists out,
    split_text_to_chunks (S (List.length text)) text n tc = Some out
    /\ chunks_of (Z.to_nat (n * tc)) text out.
Proof.
  intros Hmc. unfold split_text_to_chunks.
  destruct (while_loop_chunks_of text (n * tc) Hmc (S (List.length text))
              {| start := 0; chunks := [] |}) as [out [Hrun Hout]].
  - simpl. pose proof (len_nonneg text). lia.
  - simpl. unfold len. lia.
  - exists out. rewrite Hrun. simpl in *. auto.
Qed.

(** ** Properties of [chunks_of] *)

Lemma chunks_of_bounded (n : nat) (rest : str) (out : list str) :
  chunks_of n rest out ->
  Forall (fun c => exists body, body_of c body /\ (List.length body <= n)%nat)
    out.
Proof.
  induction 1 as [| rest out Hne Hrest IH]; constructor; trivial.
  exists (rstrip (firstn n rest)). repeat split.
  - apply rstrip_idem.
  - pose proof (rstrip_length (firstn n rest)).
    pose proof (length_firstn n rest). lia.
Qed.

Lemma chunks_of_nonspace (n : nat) (rest : str) (out : list str) :
  chunks_of n rest out ->
  filter nonspace (concat out) = filter nonspace rest.
Proof.
  induction 1 as [| rest out Hne Hrest IH]; trivial.
  cbn [concat]. rewrite !filter_app, filter_nonspace_rstrip, IH.
  change (filter nonspace marker) with (@nil char). rewrite app_nil_r.
  rewrite <- filter_app, firstn_skipn. reflexivity.
Qed.

(** ** Words: [split] across a cut *)

Lemma flush_app (w : str) (ws : list str) : flush w ws = flush w [] ++ ws.
Proof. destruct w; reflexivity. Qed.

(** A whitespace character ends the word being scanned, whatever follows. *)
Lemma split_from_space (a : str) (c : char) (b : str) :
  isspace c = true ->
  forall w, split_from w (a ++ c :: b) = split_from w a ++ split b.
Proof.
  intros Hc. induction a as [| x a IH]; intros w; cbn [app split_from].
  - rewrite Hc. apply flush_app.
  - destruct (isspace x).
    + rewrite IH, flush_app, (flush_app w (split_from [] a)).
      now rewrite app_assoc.
    + apply IH.
Qed.

Lemma split_space_between (a : str) (c : char) (b : str) :
  isspace c = true -> split (a ++ c :: b) = split a ++ split b.
Proof. intros Hc. now apply split_from_space. Qed.

Lemma split_space_last (a : str) (c : char) :
  isspace c = true -> split (a ++ [c]) = split a.
Proof.
  intros Hc. rewrite split_space_between by assumption. apply app_nil_r.
Qed.

Lemma split_space_first (c : char) (b : str) :
  isspace c = true -> split (c :: b) = split b.
Proof. intros Hc. apply (split_space_between [] c b Hc). Qed.

(** What [rstrip] removes is whitespace, so the words are unchanged. *)
Lemma split_rstrip (s : str) :
  forall w, split_from w (rstrip s) = split_from w s.
Proof.
  induction s as [| c s IH]; intros w; trivial.
  cbn [rstrip]. destruct (rstrip s) as [| d r] eqn:E.
  - destruct (isspace c) eqn:Ec; cbn [split_from]; rewrite Ec.
    + rewrite <- IH. reflexivity.
    + rewrite <- IH. reflexivity.
  - cbn [split_from]. destruct (isspace c); now rewrite <- IH.
Qed.

(** Cutting a text at [n] leaves its words alone when whitespace is on
    either side of the cut. *)
Lemma split_cut (n : nat) (rest : str) :
  (1 <= n)%nat ->
  space_at rest (n - 1) = true \/ space_at rest n = true ->
  split rest = split (firstn n rest) ++ split (skipn n rest).
Proof.
  unfold space_at. intros Hn [H | H].
  - destruct (nth_error rest (n - 1)) as [c |] eqn:E; [| discriminate].
    destruct (nth_error_split _ _ E) as [l1 [l2 [Hrest Hlen]]].
    assert (n = S (List.length l1)) as -> by lia. subst rest.
    replace (l1 ++ c :: l2) with ((l1 ++ [c]) ++ l2) at 2 3
      by now rewrite <- app_assoc.
    rewrite firstn_app, skipn_app, length_app. simpl List.length.
    rewrite firstn_all2, skipn_all2 by (rewrite length_app; simpl; lia).
    replace (S (List.length l1) - (List.length l1 + 1))%nat with O by lia.
    simpl firstn. simpl skipn.
    rewrite app_nil_r, split_space_last by assumption.
    now apply split_space_between.
  - destruct (nth_error rest n) as [c |] eqn:E; [| discriminate].
    destruct (nth_error_split _ _ E) as [l1 [l2 [Hrest Hlen]]].
    subst rest n.
    rewrite firstn_app, skipn_app, firstn_all, skipn_all, Nat.sub_diag.
    simpl. rewrite app_nil_r, split_space_first by assumption.
    now apply split_space_between.
Qed.

Lemma boundary_ok_skipn (n : nat) (rest : str) :
  (1 <= n)%nat -> boundary_ok n rest -> boundary_ok n (skipn n rest).
Proof.
  intros Hn H k Hk Hlen. rewrite length_skipn in Hlen.
  destruct (H (S k)) as [Hs | Hs]; [lia | simpl; lia | |].
  - left. unfold space_at in *. rewrite nth_error_skipn.
    replace (n + (k * n - 1))%nat with (S k * n - 1)%nat by nia. exact Hs.
  - right. unfold space_at in *. rewrite nth_error_skipn.
    replace (n + k * n)%nat with (S k * n)%nat by nia. exact Hs.
Qed.

Lemma chunks_of_split (n : nat) (rest : str) (out : list str) :
  (1 <= n)%nat -> chunks_of n rest out -> boundary_ok n rest ->
  split (concat out) = split rest.
Proof.
  intros Hn. induction 1 as [| rest out Hne Hrest IH]; intros Hok; trivial.
  cbn [concat]. unfold marker. rewrite <- app_assoc. cbn [app].
  rewrite split_space_between by reflexivity.
  rewrite split_space_first by reflexivity.
  unfold split at 1. rewrite split_rstrip. fold (split (firstn n rest)).
  rewrite IH by now apply boundary_ok_skipn.
  destruct (Nat.lt_ge_cases n (List.length rest)) as [Hlt | Hge].
  - symmetry. apply split_cut; trivial.
    specialize (Hok 1%nat). rewrite Nat.mul_1_l in Hok. apply Hok; lia.
  - rewrite firstn_all2, skipn_all2 by lia. apply app_nil_r.
Qed.

Lemma boundary_okb_sound (n : nat) (rest : str) :
  (1 <= n)%nat -> boundary_okb n rest = true -> boundary_ok n rest.
Proof.
  unfold boundary_okb, boundary_ok. intros Hn H k Hk Hlt.
  rewrite forallb_forall in H.
  assert (In k (seq 1 (List.length rest))) as Hin by (apply in_seq; nia).
  apply H in Hin.
  apply Nat.ltb_lt in Hlt. rewrite Hlt in Hin. simpl in Hin.
  now apply orb_true_iff in Hin.
Qed.

(** ** The chunker: results *)

(** C7.  Chunking the empty string returns the empty list, whatever the
    token budget and the characters per token: the loop condition fails at
    its first test. *)
Theorem split_empty_text (n tc : Z) (fuel : nat) :
  split_text_to_chunks (S fuel) [] n tc = Some [].
Proof. reflexivity. Qed.

(** C9.  With [max_tokens * token_chars >= 1] every pass through the loop
    moves [start] forward by at least one character, and the call returns
    after at most one test of the loop condition per character and one
    more; with [max_tokens * token_chars <= 0] and a non-empty text the
    loop is never left, whatever the fuel. *)
Theorem split_text_to_chunks_terminates (text : str) (n tc : Z) :
  (1 <= n * tc ->
     (forall st, loop_cond text st = true ->
                 start st + 1 <= start (loop_body text (n * tc) st))
     /\ exists out,
          split_text_to_chunks (S (List.length text)) text n tc = Some out)
  /\ (n * tc <= 0 -> text <> [] ->
      forall fuel, split_text_to_chunks fuel text n tc = None).
Proof.
  split.
  - intros Hmc. split.
    + intros st Hc. pose proof (loop_body_progress text _ st Hmc Hc). lia.
    + destruct (split_text_to_chunks_spec text n tc Hmc) as [out [Hrun _]].
      now exists out.
  - intros Hmc Hne fuel. unfold split_text_to_chunks.
    rewrite while_loop_stuck; trivial.
    unfold loop_cond. simpl. apply Z.ltb_lt.
    destruct text; [congruence | unfold len; simpl; lia].
Qed.

Lemma width_positive (n tc : Z) : 0 < n -> 0 < tc -> 1 <= n * tc.
Proof.
  intros Hn Htc. change 1 with (1 * 1).
  apply Z.mul_le_mono_nonneg; lia.
Qed.

Lemma returned_bodies_bounded (text : str) (n tc : Z) :
  1 <= n * tc ->
  exists out,
    returns text n tc out
    /\ Forall (fun c => exists body, body_of c body /\ len body <= n * tc) out.
Proof.
  intros Hmc.
  destruct (split_text_to_chunks_spec text n tc Hmc) as [out [Hrun Hout]].
  exists out. split; [now exists (S (List.length text)) |].
  apply chunks_of_bounded in Hout.
  eapply Forall_impl; [| exact Hout].
  intros c [body [Hb Hlen]]. exists body. split; trivial.
  unfold len. lia.
Qed.

(** C2.  For positive [max_tokens] and [token_chars] the call returns, and
    every chunk it returns is a body followed by the two-newline marker,
    where the body has no trailing whitespace and at most
    [max_tokens * token_chars] characters. *)
Theorem chunk_bodies_bounded (text : str) (n tc : Z) :
  0 < n -> 0 < tc ->
  exists out,
    returns text n tc out
    /\ Forall (fun c => exists body, body_of c body /\ len body <= n * tc) out.
Proof.
  intros Hn Htc. apply returned_bodies_bounded. now apply width_positive.
Qed.

Lemma chunk_bodies_bounded_witness :
  exists out,
    returns (of_string "ab cd e") 1 3 out
    /\ Forall (fun c => exists body, body_of c body /\ len body <= 1 * 3) out.
Proof. apply (chunk_bodies_bounded (of_string "ab cd e") 1 3); lia. Defined.

(** C3, as stated, fails: the one-character text ["a"] with a budget of one
    character gives the chunk ["a\n\n"], of three characters. *)
Lemma chunk_with_marker_exceeds_limit :
  ~ (forall (text : str) (n tc : Z) (out : list str),
       0 < n -> 0 < tc -> returns text n tc out ->
       Forall (fun c => len c <= n * tc) out).
Proof.
  intros H.
  specialize (H (of_string "a") 1 1 [of_string "a" ++ marker]).
  assert (Forall (fun c => len c <= 1 * 1) [of_string "a" ++ marker]) as F.
  { apply H; [lia | lia |]. exists 2%nat. reflexivity. }
  inversion F as [| c l Hc Hl]. vm_compute in Hc. now apply Hc.
Qed.

(** C3, amended.  For positive [max_tokens] and [token_chars] the call
    returns, and every chunk it returns, marker included, has at most
    [max_tokens * token_chars + 2] characters. *)
Theorem chunks_bounded_with_marker (text : str) (n tc : Z) :
  0 < n -> 0 < tc ->
  exists out,
    returns text n tc out /\ Forall (fun c => len c <= n * tc + 2) out.
Proof.
  intros Hn Htc.
  destruct (returned_bodies_bounded text n tc (width_positive n tc Hn Htc))
    as [out [Hret Hout]].
  exists out. split; trivial.
  eapply Forall_impl; [| exact Hout].
  intros c [body [[-> _] Hlen]]. rewrite len_app. unfold marker, len in *.
  simpl. lia.
Qed.

Lemma chunks_bounded_with_marker_witness :
  exists out,
    returns (of_string "a") 1 1 out /\ Forall (fun c => len c <= 1 * 1 + 2) out.
Proof. apply (chunks_bounded_with_marker (of_string "a") 1 1); lia. Defined.

(** C1, as stated, fails: a cut inside a word puts the marker there.  The
    text ["ab"] cut at width one comes back as ["a\n\nb\n\n"], which
    normalises to ["a b"], not to ["ab"]. *)
Lemma roundtrip_normalized_fails :
  ~ (forall (text : str) (n tc : Z) (out : list str),
       0 < n -> 0 < tc -> returns text n tc out ->
       ws_normalize (concat out) = ws_normalize text).
Proof.
  intros H.
  specialize (H (of_string "ab") 1 1
                [of_string "a" ++ marker; of_string "b" ++ marker]).
  assert (ws_normalize
            (concat [of_string "a" ++ marker; of_string "b" ++ marker])
          = ws_normalize (of_string "ab")) as E.
  { apply H; [lia | lia |]. exists 3%nat. reflexivity. }
  vm_compute in E. discriminate E.
Qed.

(** C1, amended.  For positive [max_tokens] and [token_chars] the call
    returns, and the chunks concatenated in order have the non-whitespace
    characters of the text, in the same order; when in addition no cut
    falls between two non-whitespace characters, the concatenation and the
    text have the same whitespace-normalised form. *)
Theorem chunks_roundtrip (text : str) (n tc : Z) :
  0 < n -> 0 < tc ->
  exists out,
    returns text n tc out
    /\ filter nonspace (concat out) = filter nonspace text
    /\ (boundary_ok (Z.to_nat (n * tc)) text ->
        ws_normalize (concat out) = ws_normalize text).
Proof.
  intros Hn Htc. pose proof (width_positive n tc Hn Htc) as Hmc.
  destruct (split_text_to_chunks_spec text n tc Hmc) as [out [Hrun Hout]].
  exists out. split; [now exists (S (List.length text)) |]. split.
  - now apply chunks_of_nonspace with (n := Z.to_nat (n * tc)).
  - intros Hok. unfold ws_normalize. f_equal.
    apply chunks_of_split with (n := Z.to_nat (n * tc)); trivial. lia.
Qed.

Lemma chunks_roundtrip_witness :
  exists out,
    returns (of_string "ab cd e") 1 3 out
    /\ filter nonspace (concat out) = filter nonspace (of_string "ab cd e")
    /\ ws_normalize (concat out) = ws_normalize (of_string "ab cd e").
Proof.
  destruct (chunks_roundtrip (of_string "ab cd e") 1 3) as [out [Hr [Hf Hw]]];
    [lia | lia |].
  exists out. repeat split; trivial.
  apply Hw. apply boundary_okb_sound; [simpl; lia | reflexivity].
Defined.

(** *** A text of one repeated letter *)

Lemma str_mul_char (c : char) (k : Z) : str_mul [c] k = repeat c (Z.to_nat k).
Proof.
  unfold str_mul. induction (Z.to_nat k) as [| m IH]; simpl; congruence.
Qed.

Lemma len_repeat (c : char) (k : Z) : 0 <= k -> len (repeat c (Z.to_nat k)) = k.
Proof. intros Hk. unfold len. rewrite repeat_length. lia. Qed.

Lemma firstn_repeat_le (c : char) (m n : nat) :
  (m <= n)%nat -> firstn m (repeat c n) = repeat c m.
Proof.
  revert n. induction m as [| m IH]; intros n H; destruct n; simpl;
    try lia; trivial.
  f_equal. apply IH. lia.
Qed.

Lemma skipn_repeat_le (c : char) (m n : nat) :
  (m <= n)%nat -> skipn m (repeat c n) = repeat c (n - m).
Proof.
  revert n. induction m as [| m IH]; intros n H; destruct n; simpl;
    try lia; trivial.
  apply IH. lia.
Qed.

Lemma slice_repeat (c : char) (k i j : Z) :
  0 <= i <= j -> j <= k ->
  slice (repeat c (Z.to_nat k)) i j = repeat c (Z.to_nat (j - i)).
Proof.
  intros Hij Hjk. unfold slice. rewrite len_repeat by lia.
  rewrite !clamp_index_inside by lia.
  rewrite skipn_repeat_le, firstn_repeat_le by lia. reflexivity.
Qed.

Lemma rstrip_repeat (c : char) (n : nat) :
  isspace c = false -> rstrip (repeat c n) = repeat c n.
Proof.
  intros Hc. induction n as [| n IH]; simpl; trivial.
  rewrite IH, Hc. now destruct (repeat c n).
Qed.

(** One pass of the loop over a text of [k] copies of a letter. *)
Lemma loop_body_repeat (c : char) (k mc : Z) (st : loop_state) :
  isspace c = false -> 0 <= start st <= k -> 0 <= mc ->
  loop_body (repeat c (Z.to_nat k)) mc st
  = {| start := Z.min (start st + mc) k;
       chunks := chunks st
                 ++ [repeat c (Z.to_nat (Z.min (start st + mc) k - start st))
                     ++ marker] |}.
Proof.
  intros Hc Hst Hmc. unfold loop_body.
  rewrite len_repeat, slice_repeat, rstrip_repeat by (trivial; lia).
  reflexivity.
Qed.

(** C8.  For the text ["a" * 30000], 7000 tokens and 4 characters per
    token, the width is 28000 and the call returns exactly two chunks: the
    first 28000 characters and the remaining 2000, each with its marker. *)
Theorem split_30000 :
  7000 * 4 = 28000
  /\ 30000 - 28000 = 2000
  /\ split_text_to_chunks 3 (str_mul (of_string "a") 30000) 7000 4
     = Some [str_mul (of_string "a") 28000 ++ marker;
             str_mul (of_string "a") 2000 ++ marker].
Proof.
  split; [reflexivity |]. split; [reflexivity |].
  change (of_string "a") with [97%N]. rewrite !str_mul_char.
  unfold split_text_to_chunks. change (7000 * 4) with 28000.
  cbn [while_loop]. unfold loop_cond at 1.
  rewrite len_repeat by lia. cbn [start]. change (0 <? 30000) with true.
  cbv iota.
  rewrite loop_body_repeat by (cbn [start]; first [reflexivity | lia]).
  cbn [start chunks app]. change (Z.min (0 + 28000) 30000 - 0) with 28000.
  change (Z.min (0 + 28000) 30000) with 28000.
  unfold loop_cond at 1. rewrite len_repeat by lia. cbn [start].
  change (28000 <? 30000) with true. cbv iota.
  rewrite loop_body_repeat by (cbn [start]; first [reflexivity | lia]).
  cbn [start chunks app].
  change (Z.min (28000 + 28000) 30000 - 28000) with 2000.
  change (Z.min (28000 + 28000) 30000) with 30000.
  unfold loop_cond. rewrite len_repeat by lia. cbn [start].
  change (30000 <? 30000) with false. reflexivity.
Qed.

(** ** The audio assembler: results *)

Lemma join_empty_sep {A : Type} (parts : list (list A)) :
  join [] parts = concat parts.
Proof.
  induction parts as [| p ps IH]; trivial.
  cbn [join concat]. destruct ps as [| p' ps'].
  - simpl. now rewrite app_nil_r.
  - rewrite IH. reflexivity.
Qed.

Lemma save_mp3_file_joined (filename : string) (parts : list bytes)
  (channels rate width : Z) :
  save_mp3_file filename (PcmList parts) channels rate width
  = option_map
      (fun audio =>
         {| exported := audio; out_file := filename; format := "mp3" |})
      (AudioSegment_init (concat parts) width rate channels).
Proof.
  unfold save_mp3_file. rewrite join_empty_sep.
  now destruct (AudioSegment_init (concat parts) width rate channels).
Qed.

(** Away from sample width 3 and a zero frame width, the constructor takes
    the data as it is, and raises exactly when their length is not a
    multiple of the frame width. *)
Lemma AudioSegment_init_plain (pcm : bytes) (width rate channels : Z) :
  width <> 3 -> width * channels <> 0 ->
  AudioSegment_init pcm width rate channels
  = if len pcm mod (width * channels) =? 0
    then Some {| data := pcm; sample_width := width; frame_rate := rate;
                 channels := channels |}
    else None.
Proof.
  intros Hw Hf. unfold AudioSegment_init.
  apply Z.eqb_neq in Hw, Hf. rewrite Hw, Hf.
  now destruct (len pcm mod (width * channels) =? 0).
Qed.

Lemma AudioSegment_init_data (pcm : bytes) (width rate channels : Z)
  (audio : AudioSegment) :
  AudioSegment_init pcm width rate channels = Some audio ->
  width <> 3 -> data audio = pcm.
Proof.
  intros Hinit Hw. unfold AudioSegment_init in Hinit.
  apply Z.eqb_neq in Hw. rewrite Hw in Hinit.
  destruct (width * channels =? 0); [discriminate |].
  destruct (len pcm mod (width * channels) =? 0); [| discriminate].
  cbn [negb] in Hinit. now inversion Hinit.
Qed.

(** C6.  Given a list of buffers, [save_mp3_file] hands the constructor of
    the segment their concatenation, byte for byte and in order, with the
    audio parameters it was given, and calls [export] on the segment unless
    the constructor raises; for two buffers the data are the first followed
    by the second.  When a segment reaches [export] and the sample width is
    not 3 (the one width at which the constructor rewrites the data), the
    segment holds exactly the concatenation.  Given one buffer, the
    function does the same as for the one-element list holding that buffer,
    whether it reaches [export] or raises. *)
Theorem save_mp3_file_assembles (filename : string) (channels rate width : Z) :
  (forall parts : list bytes,
      save_mp3_file filename (PcmList parts) channels rate width
      = option_map
          (fun audio =>
             {| exported := audio; out_file := filename; format := "mp3" |})
          (AudioSegment_init (concat parts) width rate channels))
  /\ (forall b1 b2 : bytes,
      save_mp3_file filename (PcmList [b1; b2]) channels rate width
      = option_map
          (fun audio =>
             {| exported := audio; out_file := filename; format := "mp3" |})
          (AudioSegment_init (b1 ++ b2) width rate channels))
  /\ (forall (parts : list bytes) (call : export_call),
      save_mp3_file filename (PcmList parts) channels rate width = Some call ->
      width <> 3 ->
      data (exported call) = concat parts)
  /\ (forall b : bytes,
      save_mp3_file filename (PcmBytes b) channels rate width
      = save_mp3_file filename (PcmList [b]) channels rate width).
Proof.
  split; [| split; [| split]].
  - intros parts. apply save_mp3_file_joined.
  - intros b1 b2. rewrite save_mp3_file_joined.
    cbn [concat]. now rewrite app_nil_r.
  - intros parts call Hcall Hw. rewrite save_mp3_file_joined in Hcall.
    destruct (AudioSegment_init (concat parts) width rate channels)
      as [audio |] eqn:Hinit; [| discriminate].
    cbn [option_map] in Hcall. inversion Hcall. cbn [exported].
    eapply AudioSegment_init_data; eassumption.
  - intros b. reflexivity.
Qed.

Lemma save_mp3_file_assembles_witness :
  let call :=
    {| exported := {| data := [x01; x02; x03; x04]; sample_width := 2;
                      frame_rate := 24000; channels := 1 |};
       out_file := "out.mp3"; format := "mp3" |} in
  data (exported call) = concat [[x01; x02]; [x03; x04]].
Proof.
  cbv zeta.
  apply (proj1 (proj2 (proj2 (save_mp3_file_assembles "out.mp3" 1 24000 2)))
           [[x01; x02]; [x03; x04]]).
  - reflexivity.
  - lia.
Defined.

(** Two buffers of 16-bit mono audio are exported as one, the first
    followed by the second. *)
Example save_mp3_file_two_buffers :
  save_mp3_file "out.mp3" (PcmList [[x01; x02]; [x03; x04]]) 1 24000 2
  = Some {| exported := {| data := [x01; x02; x03; x04]; sample_width := 2;
                           frame_rate := 24000; channels := 1 |};
            out_file := "out.mp3"; format := "mp3" |}.
Proof. reflexivity. Qed.

(** Three bytes are not a whole number of 16-bit samples: the constructor
    raises and nothing is exported. *)
Example save_mp3_file_odd_length :
  save_mp3_file "out.mp3" (PcmList [[x01; x02]; [x03]]) 1 24000 2 = None.
Proof. reflexivity. Qed.

(** At sample width 3, two samples of three bytes are exported as two
    samples of four bytes. *)
Example save_mp3_file_24_bit :
  option_map
    (fun call => (len (data (exported call)), sample_width (exported call)))
    (save_mp3_file "out.mp3" (PcmList [[x01; x02; x03]; [x04; x05; x06]])
       1 24000 3)
  = Some (8, 4).
Proof. reflexivity. Qed.

(** ** The cost estimator: results *)

Lemma getitem_cost_estimator (text : str) :
  exists i o,
    cost_estimator text
    = [("input"%string, i); ("output"%string, o);
       ("total"%string, (i + o)%float)]
    /\ i = (int_truediv (len text) 4 / float_of_int 1000000 * 0.5)%float
    /\ o = (int_truediv (len (split text)) 2 * float_of_int 32
            / float_of_int 1000000 * float_of_int 10)%float.
Proof. eexists; eexists. repeat split. Qed.

Lemma split_from_length (s : str) :
  forall w,
    List.length (split_from w s)
    = (word_starts (match w with [] => true | _ => false end) s
       + match w with [] => 0 | _ => 1 end)%nat.
Proof.
  induction s as [| c s IH]; intros w; cbn [split_from word_starts].
  - destruct w; reflexivity.
  - destruct (isspace c).
    + rewrite flush_app, length_app, IH. destruct w; simpl; lia.
    + rewrite IH. destruct w; simpl; lia.
Qed.

(** [len(text.split())] is the number of whitespace-delimited words. *)
Lemma split_length (text : str) : List.length (split text) = count_words text.
Proof. unfold split, count_words. rewrite split_from_length. simpl. lia. Qed.

Lemma float_of_small_ints :
  float_of_int 4 = 4%float /\ float_of_int 2 = 2%float
  /\ float_of_int 32 = 32%float /\ float_of_int 10 = 10%float
  /\ float_of_int 1000000 = 1000000%float.
Proof. repeat split. Qed.

(** C4.  The three fields of the dictionary [cost_estimator] returns:
    ['input'] is [(len(text) / 4) / 1_000_000 * 0.5], ['output'] is
    [((words / 2) * 32) / 1_000_000 * 10] for the number of
    whitespace-delimited words, and ['total'] is their sum, all in binary64
    arithmetic; for ["hello world"] these are [2.75/1e6*0.5],
    [32/1e6*10] and their sum. *)
Theorem cost_estimator_fields (text : str) :
  let input := (float_of_int (len text) / 4 / 1000000 * 0.5)%float in
  let output :=
    (float_of_int (Z.of_nat (count_words text)) / 2 * 32 / 1000000
     * 10)%float in
  getitem (cost_estimator text) "input" = Some input
  /\ getitem (cost_estimator text) "output" = Some output
  /\ getitem (cost_estimator text) "total" = Some (input + output)%float
  /\ cost_estimator (of_string "hello world")
     = [("input"%string, (2.75 / 1000000 * 0.5)%float);
        ("output"%string, (32 / 1000000 * 10)%float);
        ("total"%string, (2.75 / 1000000 * 0.5 + 32 / 1000000 * 10)%float)].
Proof.
  cbv zeta.
  destruct (getitem_cost_estimator text) as [i [o [E [Hi Ho]]]].
  rewrite E. cbn [getitem String.eqb Ascii.eqb Bool.eqb].
  unfold int_truediv, len in Hi, Ho. rewrite split_length in Ho.
  destruct float_of_small_ints as [E4 [E2 [E32 [E10 EM]]]].
  rewrite ?E4, ?E2, ?E32, ?E10, ?EM in Hi, Ho. subst i o.
  repeat split.
Qed.

(** *** Signs in binary64 arithmetic *)

Lemma leb_zero_spec (x : float) : (0 <=? x)%float = SFnonneg (Prim2SF x).
Proof.
  rewrite FloatAxioms.leb_spec. change (Prim2SF 0) with (S754_zero false).
  destruct (Prim2SF x) as [s | s | | s m e]; try destruct s; reflexivity.
Qed.

Lemma shr_1_nonneg (mrs : shr_record) :
  0 <= shr_m mrs -> 0 <= shr_m (shr_1 mrs).
Proof.
  destruct mrs as [m r s]. destruct m as [| p | p]; try destruct p; simpl; lia.
Qed.

Lemma iter_shr_1_nonneg (p : positive) :
  forall mrs, 0 <= shr_m mrs -> 0 <= shr_m (iter_pos shr_1 p mrs).
Proof.
  induction p as [p IH | p IH |]; intros mrs H; simpl;
    auto using shr_1_nonneg.
Qed.

Lemma shr_fexp_nonneg (m e : Z) (l : location) :
  0 <= m -> 0 <= shr_m (fst (shr_fexp prec emax m e l)).
Proof.
  intros H. unfold shr_fexp, shr.
  assert (0 <= shr_m (shr_record_of_loc m l)) as H0
      by (destruct l as [| []]; exact H).
  destruct (fexp prec emax (Zdigits2 m + e) - e); simpl; trivial.
  now apply iter_shr_1_nonneg.
Qed.

Lemma round_nearest_even_nonneg (m : Z) (l : location) :
  0 <= m -> 0 <= round_nearest_even m l.
Proof.
  intros H. destruct l as [| []]; simpl; trivial; [| lia].
  destruct (Z.even m); lia.
Qed.

(** Rounding keeps the sign it is given. *)
Lemma binary_round_aux_nonneg (mx ex : Z) (lx : location) :
  0 <= mx -> SFnonneg (binary_round_aux prec emax false mx ex lx) = true.
Proof.
  intros H. unfold binary_round_aux.
  pose proof (shr_fexp_nonneg mx ex lx H) as H1.
  destruct (shr_fexp prec emax mx ex lx) as [mrs' e']. simpl in H1.
  pose proof (shr_fexp_nonneg _ e' loc_Exact
                (round_nearest_even_nonneg _ (loc_of_shr_record mrs') H1))
    as H2.
  destruct (shr_fexp prec emax _ e' loc_Exact) as [mrs'' e'']. simpl in H2.
  destruct (shr_m mrs''); [reflexivity | | lia].
  destruct (e'' <=? emax - prec); reflexivity.
Qed.

Lemma binary_normalize_nonneg (m e : Z) :
  0 <= m -> SFnonneg (binary_normalize prec emax m e false) = true.
Proof.
  intros H. destruct m as [| p | p]; [reflexivity | | lia].
  unfold binary_normalize, binary_round.
  destruct (shl_align p e _) as [mz ez]. now apply binary_round_aux_nonneg.
Qed.

Lemma float_of_int_nonneg (z : Z) :
  SFnonneg (Prim2SF (float_of_int z)) = true.
Proof.
  unfold float_of_int. rewrite of_uint63_spec.
  apply binary_normalize_nonneg. apply Uint63.to_Z_bounded.
Qed.

Lemma div_nonneg (x y : float) :
  SFnonneg (Prim2SF x) = true -> SFpositive (Prim2SF y) = true ->
  SFnonneg (Prim2SF (x / y)) = true.
Proof.
  rewrite FloatAxioms.div_spec. unfold SF64div.
  destruct (Prim2SF y) as [| | | [] my ey]; try discriminate. intros Hx _.
  destruct (Prim2SF x) as [sx | sx | | sx mx ex]; try discriminate;
    try (destruct sx; try discriminate; reflexivity).
  destruct sx; [discriminate |]. unfold SFdiv.
  destruct (SFdiv_core_binary prec emax (Z.pos mx) ex (Z.pos my) ey)
    as [[mz ez] lz] eqn:E.
  apply binary_round_aux_nonneg.
  unfold SFdiv_core_binary in E.
  match type of E with
  | (let '(q, r) := Z.div_eucl ?a ?b in _) = _ =>
      assert (0 <= a / b) as Hq;
      [ apply Z.div_pos; [| lia] |
        unfold Z.div in Hq; destruct (Z.div_eucl a b) as [q r] ]
  end.
  - destruct (ex - ey - _) as [| s | s]; try lia.
    apply Z.shiftl_nonneg. lia.
  - simpl in Hq. injection E as <- _ _. exact Hq.
Qed.

Lemma mul_nonneg (x y : float) :
  SFnonneg (Prim2SF x) = true -> SFpositive (Prim2SF y) = true ->
  SFnonneg (Prim2SF (x * y)) = true.
Proof.
  rewrite FloatAxioms.mul_spec. unfold SF64mul.
  destruct (Prim2SF y) as [| | | [] my ey]; try discriminate. intros Hx _.
  destruct (Prim2SF x) as [sx | sx | | sx mx ex]; try discriminate;
    try (destruct sx; try discriminate; reflexivity).
  destruct sx; [discriminate |]. unfold SFmul.
  apply binary_round_aux_nonneg. lia.
Qed.

Lemma add_nonneg (x y : float) :
  SFnonneg (Prim2SF x) = true -> SFnonneg (Prim2SF y) = true ->
  SFnonneg (Prim2SF (x + y)) = true.
Proof.
  rewrite FloatAxioms.add_spec. unfold SF64add.
  destruct (Prim2SF x) as [sx | sx | | sx mx ex]; try discriminate;
    destruct (Prim2SF y) as [sy | sy | | sy my ey]; try discriminate;
    try (destruct sx; try discriminate); try (destruct sy; try discriminate);
    try reflexivity.
  intros _ _. unfold SFadd. apply binary_normalize_nonneg.
  unfold cond_Zopp. lia.
Qed.

Lemma cost_fields_nonneg (n w : Z) :
  let i := (int_truediv n INPUT_TOKEN_CHARS / float_of_int 1000000
            * INPUT_COST_PER_MILLION)%float in
  let o := (int_truediv w WORDS_PER_SECOND
            * float_of_int OUTPUT_TOKENS_PER_SECOND / float_of_int 1000000
            * float_of_int OUTPUT_COST_PER_MILLION)%float in
  SFnonneg (Prim2SF i) = true /\ SFnonneg (Prim2SF o) = true.
Proof.
  cbv zeta. unfold int_truediv. split.
  - apply mul_nonneg; [| reflexivity].
    apply div_nonneg; [| reflexivity].
    apply div_nonneg; [| reflexivity].
    apply float_of_int_nonneg.
  - apply mul_nonneg; [| reflexivity].
    apply div_nonneg; [| reflexivity].
    apply mul_nonneg; [| reflexivity].
    apply div_nonneg; [| reflexivity].
    apply float_of_int_nonneg.
Qed.

(** C10.  The dictionary [cost_estimator] returns has the three keys
    ['input'], ['output'] and ['total'], and each of its values is a
    number (not NaN) that is at least zero. *)
Theorem cost_estimator_nonneg (text : str) :
  map fst (cost_estimator text)
  = ["input"%string; "output"%string; "total"%string]
  /\ Forall (fun kv => (0 <=? snd kv)%float = true) (cost_estimator text).
Proof.
  split; [reflexivity |].
  destruct (cost_fields_nonneg (len text) (len (split text))) as [Hi Ho].
  unfold cost_estimator. repeat constructor; cbn [snd]; rewrite leb_zero_spec;
    trivial.
  now apply add_nonneg.
Qed.

(** ** Rounding in binary64 arithmetic *)

(** A power of two with a non-negative exponent is positive. *)
Ltac pow_positive := apply Z.pow_pos_nonneg; lia.


(** *** Round half to even *)

(** [rne_div a b] is within one half of [a / b], and even at a tie. *)
Lemma rne_div_spec (a b : Z) :
  0 < b ->
  let r := rne_div a b in
  (2 * r - 1) * b <= 2 * a <= (2 * r + 1) * b
  /\ (2 * a = (2 * r - 1) * b -> Z.even r = true)
  /\ (2 * a = (2 * r + 1) * b -> Z.even r = true).
Proof.
  intros Hb. cbv zeta. unfold rne_div.
  assert (b <> 0) as Hb0 by lia.
  pose proof (Z.div_mod a b Hb0) as Hdm.
  pose proof (Z.mod_pos_bound a b Hb) as Hr.
  set (q := a / b) in *. set (r := a mod b) in *.
  destruct (Z.compare_spec (2 * r) b) as [E | L | G].
  - destruct (Z.even q) eqn:Ev.
    + repeat split; intros; try assumption; nia.
    + assert (Z.even (q + 1) = true) by (rewrite Z.even_add, Ev; reflexivity).
      repeat split; intros; try assumption; nia.
  - repeat split; intros; nia.
  - repeat split; intros; nia.
Qed.

Lemma rne_div_mono (a1 a2 b : Z) :
  0 < b -> a1 <= a2 -> rne_div a1 b <= rne_div a2 b.
Proof.
  intros Hb Ha.
  destruct (rne_div_spec a1 b Hb) as [[L1 U1] [E1 E1']].
  destruct (rne_div_spec a2 b Hb) as [[L2 U2] [E2 E2']].
  set (r1 := rne_div a1 b) in *. set (r2 := rne_div a2 b) in *.
  destruct (Z.le_gt_cases r1 r2) as [H | H]; trivial. exfalso.
  assert (r1 = r2 + 1) as E by nia.
  assert (2 * a1 = (2 * r1 - 1) * b) as X1 by nia.
  assert (2 * a2 = (2 * r2 + 1) * b) as X2 by nia.
  specialize (E1 X1). specialize (E2' X2).
  rewrite E, Z.even_add, E2' in E1. discriminate.
Qed.

Lemma rne_div_scale (a b c : Z) :
  0 < b -> 0 < c -> rne_div (a * c) (b * c) = rne_div a b.
Proof.
  intros Hb Hc. unfold rne_div.
  rewrite Z.div_mul_cancel_r by lia.
  rewrite Zmult_mod_distr_r.
  replace (2 * (a mod b * c)) with (2 * (a mod b) * c) by ring.
  destruct (Z.compare_spec (2 * (a mod b) * c) (b * c));
    destruct (Z.compare_spec (2 * (a mod b)) b); try nia; reflexivity.
Qed.

Lemma rne_div_exact (q b : Z) : 0 < b -> rne_div (q * b) b = q.
Proof.
  intros Hb. unfold rne_div. rewrite Z.div_mul, Z.mod_mul by lia.
  destruct (Z.compare_spec (2 * 0) b); lia.
Qed.

Lemma rne_div_range (a b lo hi : Z) :
  0 < b -> lo * b <= a <= hi * b -> lo <= rne_div a b <= hi.
Proof.
  intros Hb [H1 H2]. split.
  - rewrite <- (rne_div_exact lo b Hb). now apply rne_div_mono.
  - rewrite <- (rne_div_exact hi b Hb). now apply rne_div_mono.
Qed.

(** *** Binary digits *)

Lemma Zdigits2_log2 (p : positive) : Zdigits2 (Zpos p) = Z.log2 (Zpos p) + 1.
Proof.
  simpl. induction p as [p IH | p IH |]; simpl; trivial.
  - rewrite Pos2Z.inj_succ. simpl in IH. destruct p; simpl in *; lia.
  - rewrite Pos2Z.inj_succ. simpl in IH. destruct p; simpl in *; lia.
Qed.

Lemma Zdigits2_bounds (m : Z) :
  0 < m -> 2 ^ (Zdigits2 m - 1) <= m < 2 ^ Zdigits2 m.
Proof.
  intros H. destruct m as [| p | p]; try lia.
  rewrite Zdigits2_log2.
  pose proof (Z.log2_spec (Zpos p) H) as L.
  replace (Z.log2 (Z.pos p) + 1 - 1) with (Z.log2 (Z.pos p)) by lia.
  replace (Z.log2 (Z.pos p) + 1) with (Z.succ (Z.log2 (Z.pos p))) by lia.
  exact L.
Qed.

Lemma Zdigits2_unique (m d : Z) :
  2 ^ (d - 1) <= m < 2 ^ d -> 1 <= d -> Zdigits2 m = d.
Proof.
  intros H Hd.
  assert (0 < m) as Hm by (pose proof (Z.pow_pos_nonneg 2 (d - 1)); lia).
  destruct m as [| p | p]; try lia.
  rewrite Zdigits2_log2.
  rewrite (Z.log2_unique (Zpos p) (d - 1)); try lia.
  replace (Z.succ (d - 1)) with d by lia. exact H.
Qed.

(** *** The shift records of the rounding algorithm *)

Lemma shr_1_fields (mrs : shr_record) :
  0 <= shr_m mrs ->
  shr_1 mrs = {| shr_m := shr_m mrs / 2; shr_r := Z.odd (shr_m mrs);
                 shr_s := shr_r mrs || shr_s mrs |}.
Proof.
  destruct mrs as [m r s]. simpl. intros H. rewrite <- Z.div2_div.
  destruct m as [| [p | p |] |]; try lia; reflexivity.
Qed.

(** One shift to the right halves the quotient the record holds. *)
Lemma shr_1_represents (mrs : shr_record) (a b : Z) :
  represents mrs a b -> represents (shr_1 mrs) a (b * 2).
Proof.
  intros (Hb & Ha & Hm & Hr & Hs).
  assert (0 <= shr_m mrs) as Hm0 by (rewrite Hm; apply Z.div_pos; lia).
  rewrite shr_1_fields by assumption. unfold represents.
  cbn [shr_m shr_r shr_s].
  rewrite Z.rem_mul_r, <- Z.div_div by lia. rewrite Hm, Hr, Hs.
  pose proof (Z.mod_pos_bound a b Hb) as Hrho.
  rewrite Zmod_odd.
  set (rho := a mod b) in *. set (q := a / b) in *.
  repeat split; try lia.
  - destruct (Z.odd q);
      destruct (Z.leb_spec (b * 2) (2 * (rho + b * 1)));
      destruct (Z.leb_spec (b * 2) (2 * (rho + b * 0))); lia.
  - destruct (Z.odd q);
      destruct (Z.leb_spec b (2 * rho));
      destruct (Z.eqb_spec rho 0);
      destruct (Z.eqb_spec (2 * rho) b);
      destruct (Z.eqb_spec (rho + b * 1) 0);
      destruct (Z.eqb_spec (rho + b * 0) 0);
      destruct (Z.eqb_spec (2 * (rho + b * 1)) (b * 2));
      destruct (Z.eqb_spec (2 * (rho + b * 0)) (b * 2));
      simpl; try reflexivity; lia.
Qed.

Lemma iter_shr_1_represents (p : positive) :
  forall mrs a b,
    represents mrs a b ->
    represents (iter_pos shr_1 p mrs) a (b * 2 ^ Zpos p).
Proof.
  induction p as [p IH | p IH |]; intros mrs a b H; cbn [iter_pos].
  - apply shr_1_represents in H. apply IH in H. apply IH in H.
    replace (b * 2 ^ Z.pos p~1) with (b * 2 * 2 ^ Z.pos p * 2 ^ Z.pos p);
      trivial.
    rewrite (Pos2Z.inj_xI p).
    replace (2 * Z.pos p + 1) with (1 + Z.pos p + Z.pos p) by lia.
    rewrite !Z.pow_add_r, Z.pow_1_r by lia. ring.
  - apply IH in H. apply IH in H.
    replace (b * 2 ^ Z.pos p~0) with (b * 2 ^ Z.pos p * 2 ^ Z.pos p); trivial.
    rewrite (Pos2Z.inj_xO p).
    replace (2 * Z.pos p) with (Z.pos p + Z.pos p) by lia.
    rewrite Z.pow_add_r by lia. ring.
  - apply shr_1_represents in H. now rewrite Z.pow_1_r.
Qed.

(** Rounding a record gives the quotient it holds, rounded to nearest even. *)
Lemma round_nearest_even_represents (mrs : shr_record) (a b : Z) :
  represents mrs a b ->
  round_nearest_even (shr_m mrs) (loc_of_shr_record mrs) = rne_div a b.
Proof.
  intros (Hb & Ha & Hm & Hr & Hs). destruct mrs as [m r s].
  cbn [shr_m shr_r shr_s] in *. subst m r s.
  unfold rne_div, loc_of_shr_record, round_nearest_even.
  pose proof (Z.mod_pos_bound a b Hb) as Hrho.
  destruct (Z.compare_spec (2 * (a mod b)) b) as [E | L | G];
    destruct (Z.leb_spec b (2 * (a mod b)));
    destruct (Z.eqb_spec (a mod b) 0);
    destruct (Z.eqb_spec (2 * (a mod b)) b);
    try lia; reflexivity.
Qed.

Lemma record_exact_represents (m : Z) :
  0 <= m -> represents (shr_record_of_loc m loc_Exact) m 1.
Proof.
  intros H. unfold represents. simpl.
  rewrite Z.div_1_r, Z.mod_1_r. repeat split; try lia.
Qed.

(** What the division hands to the rounding. *)
Lemma new_location_represents (a b : Z) :
  0 < b -> 0 <= a ->
  represents (shr_record_of_loc (a / b) (new_location b (a mod b))) a b.
Proof.
  intros Hb Ha. pose proof (Z.mod_pos_bound a b Hb) as Hrho.
  unfold new_location, new_location_even, new_location_odd.
  set (rho := a mod b) in *.
  assert (forall l : location,
             shr_m (shr_record_of_loc (a / b) l) = a / b) as Hm
      by (intros [| []]; reflexivity).
  unfold represents. rewrite Hm. fold rho.
  destruct (Z.even b) eqn:Eb.
  - destruct (Z.eqb_spec rho 0) as [E0 | N0].
    + rewrite E0. simpl.
      destruct (Z.leb_spec b 0); repeat split; try lia.
    + destruct (Z.compare_spec (2 * rho) b);
        destruct (Z.leb_spec b (2 * rho));
        destruct (Z.eqb_spec (2 * rho) b);
        simpl; repeat split; lia.
  - assert (2 * rho <> b) as Hodd.
    { intros E. rewrite <- E, Z.even_mul in Eb. discriminate. }
    destruct (Z.eqb_spec rho 0) as [E0 | N0].
    + rewrite E0. simpl.
      destruct (Z.leb_spec b 0); repeat split; try lia.
    + destruct (Z.compare_spec (2 * rho + 1) b);
        destruct (Z.leb_spec b (2 * rho));
        destruct (Z.eqb_spec (2 * rho) b);
        simpl; repeat split; lia.
Qed.

(** *** The rounding step of every operation *)

Lemma fexp_normal (k : Z) : -1021 <= k -> fexp prec emax k = k - 53.
Proof. intros H. unfold fexp, SpecFloat.emin, prec, emax. lia. Qed.

Lemma shr_m_record_of_loc (m : Z) (l : location) :
  shr_m (shr_record_of_loc m l) = m.
Proof. destruct l as [| []]; reflexivity. Qed.

Lemma loc_of_record_of_loc (m : Z) (l : location) :
  loc_of_shr_record (shr_record_of_loc m l) = l.
Proof. destruct l as [| []]; reflexivity. Qed.

(** A quotient of at least 53 digits, and where it lies. *)
Lemma quotient_digits (a b : Z) :
  0 < b -> 2 ^ 52 * b <= a ->
  let d := Zdigits2 (a / b) in
  53 <= d /\ 2 ^ 52 * (b * 2 ^ (d - 53)) <= a < 2 ^ 53 * (b * 2 ^ (d - 53)).
Proof.
  intros Hb Ha d.
  assert (2 ^ 52 <= a / b) as Hq by (apply Z.div_le_lower_bound; lia).
  assert (0 < a / b) as Hq0 by lia.
  pose proof (Zdigits2_bounds (a / b) Hq0) as Hd. fold d in Hd.
  assert (53 <= d) as Hd53.
  { destruct (Z.le_gt_cases 53 d) as [H | H]; trivial. exfalso.
    assert (2 ^ d <= 2 ^ 52) by (apply Z.pow_le_mono_r; lia). lia. }
  split; trivial.
  assert (2 ^ (d - 1) = 2 ^ 52 * 2 ^ (d - 53)) as E1
      by (rewrite <- Z.pow_add_r by lia; f_equal; lia).
  assert (2 ^ d = 2 ^ 53 * 2 ^ (d - 53)) as E2
      by (rewrite <- Z.pow_add_r by lia; f_equal; lia).
  destruct Hd as [Hlo Hhi].
  pose proof (Z.mul_div_le a b Hb) as Hle.
  pose proof (Z.mod_pos_bound a b Hb) as Hmod.
  pose proof (Z.div_mod a b ltac:(lia)) as Hdm.
  rewrite E1 in Hlo. rewrite E2 in Hhi.
  set (q := a / b) in *. set (P := 2 ^ (d - 53)) in *.
  assert (0 < P) by pow_positive.
  split; nia.
Qed.

(** [binary_round_aux], started on a record that holds [a / b] at exponent
    [ex], returns [rnd a b ex]. *)
Lemma binary_round_aux_rnd (mx ex : Z) (lx : location) (a b : Z) :
  represents (shr_record_of_loc mx lx) a b ->
  2 ^ 52 * b <= a ->
  -1021 <= Zdigits2 (a / b) + ex <= 1023 ->
  binary_round_aux prec emax false mx ex lx = rnd a b ex.
Proof.
  intros Hrep Ha HK.
  pose proof Hrep as (Hb & Ha0 & Hm & _).
  rewrite shr_m_record_of_loc in Hm. subst mx.
  destruct (quotient_digits a b Hb Ha) as [Hd Hrange].
  unfold rnd. set (d := Zdigits2 (a / b)) in *.
  unfold binary_round_aux, shr_fexp. fold d.
  rewrite fexp_normal by lia.
  replace (d + ex - 53 - ex) with (d - 53) by lia.
  assert (exists mrs',
             shr (shr_record_of_loc (a / b) lx) ex (d - 53)
             = (mrs', ex + (d - 53))
             /\ represents mrs' a (b * 2 ^ (d - 53))) as [mrs' [Es Hrep']].
  { unfold shr. destruct (d - 53) as [| p | p] eqn:E; try lia.
    - eexists. split; [f_equal; lia |].
      now rewrite Z.pow_0_r, Z.mul_1_r.
    - eexists. split; [reflexivity |]. now apply iter_shr_1_represents. }
  rewrite Es, (round_nearest_even_represents _ _ _ Hrep').
  assert (0 < b * 2 ^ (d - 53)) as HB
      by (apply Z.mul_pos_pos; [lia | pow_positive]).
  pose proof (rne_div_range a (b * 2 ^ (d - 53)) (2 ^ 52) (2 ^ 53) HB
                ltac:(lia)) as Hm.
  set (m := rne_div a (b * 2 ^ (d - 53))) in *.
  destruct (Z.eqb_spec m (2 ^ 53)) as [E | N].
  - rewrite E. change (Zdigits2 (2 ^ 53)) with 54.
    rewrite fexp_normal by lia.
    replace (54 + (ex + (d - 53)) - 53 - (ex + (d - 53))) with 1 by lia.
    cbn [shr iter_pos shr_record_of_loc]. 
    change (shr_m (shr_1 {| shr_m := 2 ^ 53; shr_r := false; shr_s := false |}))
      with (2 ^ 52).
    change (2 ^ 52) with (Z.pos (Z.to_pos (2 ^ 52))) at 1. cbv iota.
    replace (ex + (d - 53) + 1 <=? emax - prec) with true
      by (symmetry; apply Z.leb_le; unfold emax, prec; lia).
    f_equal. lia.
  - assert (Zdigits2 m = 53) as Ed
        by (apply Zdigits2_unique; [change (53 - 1) with 52 |]; lia).
    rewrite Ed, fexp_normal by lia.
    replace (53 + (ex + (d - 53)) - 53 - (ex + (d - 53))) with 0 by lia.
    cbn [shr shr_record_of_loc shr_m].
    destruct m as [| pm | pm]; try lia.
    replace (ex + (d - 53) <=? emax - prec) with true
      by (symmetry; apply Z.leb_le; unfold emax, prec; lia).
    f_equal. lia.
Qed.

(** *** Order and range of the results *)

Lemma SFleb_finite (m1 m2 : positive) (e1 e2 : Z) :
  SFleb (S754_finite false m1 e1) (S754_finite false m2 e2) = true
  <-> e1 < e2 \/ (e1 = e2 /\ Zpos m1 <= Zpos m2).
Proof.
  unfold SFleb, SFcompare.
  destruct (Z.compare_spec e1 e2) as [E | L | G].
  - fold (Pos.compare m1 m2).
    destruct (Pos.compare_spec m1 m2) as [Em | Lm | Gm]; split; intros H;
      try discriminate; try reflexivity; try lia.
  - split; [lia | reflexivity].
  - split; [discriminate | lia].
Qed.

Lemma Zdigits2_le_mono (m1 m2 : Z) :
  0 < m1 <= m2 -> Zdigits2 m1 <= Zdigits2 m2.
Proof.
  intros [H0 H]. destruct m1 as [| p1 | p1]; destruct m2 as [| p2 | p2];
    try lia.
  rewrite !Zdigits2_log2. pose proof (Z.log2_le_mono _ _ H). lia.
Qed.

Lemma Zdigits2_upper (m k : Z) : 0 < m < 2 ^ k -> Zdigits2 m <= k.
Proof.
  intros [H0 H]. pose proof (Zdigits2_bounds m H0) as [Hlo _].
  destruct (Z.le_gt_cases (Zdigits2 m) k) as [L | G]; trivial. exfalso.
  assert (2 ^ k <= 2 ^ (Zdigits2 m - 1)) by (apply Z.pow_le_mono_r; lia).
  lia.
Qed.

Lemma Zdigits2_lower (m k : Z) : 0 <= k -> 2 ^ k <= m -> k + 1 <= Zdigits2 m.
Proof.
  intros Hk H.
  assert (0 < m) as H0 by (pose proof (Z.pow_pos_nonneg 2 k); lia).
  pose proof (Zdigits2_bounds m H0) as [_ Hhi].
  destruct (Z.le_gt_cases (k + 1) (Zdigits2 m)) as [L | G]; trivial. exfalso.
  assert (2 ^ Zdigits2 m <= 2 ^ k) by (apply Z.pow_le_mono_r; lia).
  lia.
Qed.

(** The result of [rnd] is normal, in the binade of the quotient or in the
    next one. *)
Lemma rnd_normal (a b e : Z) :
  0 < b -> 2 ^ 52 * b <= a ->
  normal (e + Zdigits2 (a / b) - 53) (e + Zdigits2 (a / b) - 52) (rnd a b e).
Proof.
  intros Hb Ha. destruct (quotient_digits a b Hb Ha) as [Hd Hrange].
  unfold rnd. set (d := Zdigits2 (a / b)) in *.
  assert (0 < b * 2 ^ (d - 53)) as HB
      by (apply Z.mul_pos_pos; [lia | pow_positive]).
  pose proof (rne_div_range a (b * 2 ^ (d - 53)) (2 ^ 52) (2 ^ 53) HB
                ltac:(lia)) as Hm.
  set (m := rne_div a (b * 2 ^ (d - 53))) in *.
  destruct (Z.eqb_spec m (2 ^ 53)) as [E | N].
  - eexists; eexists. split; [reflexivity |]. split; [| lia].
    rewrite Z2Pos.id by lia. lia.
  - eexists; eexists. split; [reflexivity |]. split; [| lia].
    rewrite Z2Pos.id by lia. lia.
Qed.

(** [rnd] depends on the value [(a / b) * 2^e] only. *)
Lemma rnd_scale (a b e k : Z) :
  0 < b -> 2 ^ 52 * b <= a -> 0 <= k ->
  rnd (a * 2 ^ k) b (e - k) = rnd a b e.
Proof.
  intros Hb Ha Hk. destruct (quotient_digits a b Hb Ha) as [Hd Hrange].
  unfold rnd. set (d := Zdigits2 (a / b)) in *.
  assert (0 < 2 ^ k) as Hpk by pow_positive.
  assert (0 < 2 ^ (d - 53)) as Hpd by pow_positive.
  assert (Zdigits2 (a * 2 ^ k / b) = d + k) as Ed.
  { apply Zdigits2_unique; [| lia]. split.
    - apply Z.div_le_lower_bound; [lia |].
      replace (d + k - 1) with (52 + (d - 53) + k) by lia.
      rewrite !Z.pow_add_r by lia. nia.
    - apply Z.div_lt_upper_bound; [lia |].
      replace (d + k) with (53 + (d - 53) + k) by lia.
      rewrite !Z.pow_add_r by lia. nia. }
  rewrite Ed.
  replace (b * 2 ^ (d + k - 53)) with (b * 2 ^ (d - 53) * 2 ^ k)
    by (replace (d + k - 53) with (d - 53 + k) by lia;
        rewrite Z.pow_add_r by lia; ring).
  rewrite rne_div_scale by lia.
  replace (e - k + (d + k) - 52) with (e + d - 52) by lia.
  replace (e - k + (d + k) - 53) with (e + d - 53) by lia.
  reflexivity.
Qed.

(** [rnd] is monotone. *)
Lemma rnd_mono (a1 a2 b e : Z) :
  0 < b -> 2 ^ 52 * b <= a1 -> a1 <= a2 ->
  SFleb (rnd a1 b e) (rnd a2 b e) = true.
Proof.
  intros Hb Ha1 Ha.
  assert (2 ^ 52 * b <= a2) as Ha2 by lia.
  destruct (quotient_digits a1 b Hb Ha1) as [Hd1 Hr1].
  destruct (quotient_digits a2 b Hb Ha2) as [Hd2 Hr2].
  assert (Zdigits2 (a1 / b) <= Zdigits2 (a2 / b)) as Hdd.
  { apply Zdigits2_le_mono. split; [| now apply Z.div_le_mono].
    assert (2 ^ 52 <= a1 / b) by (apply Z.div_le_lower_bound; lia). lia. }
  unfold rnd.
  set (d1 := Zdigits2 (a1 / b)) in *. set (d2 := Zdigits2 (a2 / b)) in *.
  assert (0 < b * 2 ^ (d1 - 53)) as HB1
      by (apply Z.mul_pos_pos; [lia | pow_positive]).
  assert (0 < b * 2 ^ (d2 - 53)) as HB2
      by (apply Z.mul_pos_pos; [lia | pow_positive]).
  pose proof (rne_div_range a1 _ (2 ^ 52) (2 ^ 53) HB1 ltac:(lia)) as Hm1.
  pose proof (rne_div_range a2 _ (2 ^ 52) (2 ^ 53) HB2 ltac:(lia)) as Hm2.
  assert (d1 = d2 ->
          rne_div a1 (b * 2 ^ (d1 - 53)) <= rne_div a2 (b * 2 ^ (d2 - 53)))
    as Hmono.
  { intros E. rewrite <- E. now apply rne_div_mono. }
  set (m1 := rne_div a1 (b * 2 ^ (d1 - 53))) in *.
  set (m2 := rne_div a2 (b * 2 ^ (d2 - 53))) in *.
  destruct (Z.eqb_spec m1 (2 ^ 53)) as [E1 | N1];
    destruct (Z.eqb_spec m2 (2 ^ 53)) as [E2 | N2];
    apply SFleb_finite; rewrite ?Z2Pos.id by lia; lia.
Qed.

(** *** Division and multiplication of normal numbers *)

Lemma div_eucl_div_mod (a b : Z) : Z.div_eucl a b = (a / b, a mod b).
Proof. unfold Z.div, Z.modulo. now destruct (Z.div_eucl a b). Qed.

Lemma digits_normal (m : positive) :
  2 ^ 52 <= Zpos m < 2 ^ 53 -> Zdigits2 (Zpos m) = 53.
Proof. intros H. apply Zdigits2_unique; [exact H | lia]. Qed.

Lemma SFdiv_core_normal (mx my : positive) (ex ey : Z) :
  2 ^ 52 <= Zpos mx < 2 ^ 53 -> 2 ^ 52 <= Zpos my < 2 ^ 53 ->
  -1021 <= ex - ey ->
  SFdiv_core_binary prec emax (Zpos mx) ex (Zpos my) ey
  = ((Zpos mx * 2 ^ 53) / Zpos my, ex - ey - 53,
     new_location (Zpos my) ((Zpos mx * 2 ^ 53) mod Zpos my)).
Proof.
  intros Hx Hy He. unfold SFdiv_core_binary.
  rewrite !digits_normal by assumption.
  replace (53 + ex - (53 + ey)) with (ex - ey) by lia.
  rewrite fexp_normal by lia.
  rewrite Z.min_l by lia.
  replace (ex - ey - (ex - ey - 53)) with 53 by lia.
  rewrite Z.shiftl_mul_pow2 by lia.
  rewrite div_eucl_div_mod. reflexivity.
Qed.

Lemma SFdiv_rnd (mx my : positive) (ex ey : Z) :
  2 ^ 52 <= Zpos mx < 2 ^ 53 -> 2 ^ 52 <= Zpos my < 2 ^ 53 ->
  -900 <= ex - ey <= 900 ->
  SFdiv prec emax (S754_finite false mx ex) (S754_finite false my ey)
  = rnd (Zpos mx * 2 ^ 53) (Zpos my) (ex - ey - 53)
  /\ normal (ex - ey - 53) (ex - ey - 51)
       (rnd (Zpos mx * 2 ^ 53) (Zpos my) (ex - ey - 53)).
Proof.
  intros Hx Hy He. unfold SFdiv.
  rewrite SFdiv_core_normal by (trivial; lia). cbn [xorb].
  assert (2 ^ 52 * Zpos my <= Zpos mx * 2 ^ 53) as Ha by nia.
  assert (53 <= Zdigits2 (Zpos mx * 2 ^ 53 / Zpos my) <= 54) as Hd.
  { split.
    - apply (Zdigits2_lower _ 52); [lia |].
      apply Z.div_le_lower_bound; lia.
    - apply Zdigits2_upper. split.
      + apply Z.div_str_pos. nia.
      + apply Z.div_lt_upper_bound; [lia |]. nia. }
  split.
  - apply binary_round_aux_rnd; trivial; [| lia].
    apply new_location_represents; lia.
  - pose proof (rnd_normal (Zpos mx * 2 ^ 53) (Zpos my) (ex - ey - 53)
                  ltac:(lia) Ha) as (m & e & E & Hm & Hexp).
    exists m, e. repeat split; trivial; lia.
Qed.

Lemma SFmul_rnd (mx my : positive) (ex ey : Z) :
  2 ^ 52 <= Zpos mx < 2 ^ 53 -> 2 ^ 52 <= Zpos my < 2 ^ 53 ->
  -900 <= ex + ey <= 800 ->
  SFmul prec emax (S754_finite false mx ex) (S754_finite false my ey)
  = rnd (Zpos mx * Zpos my) 1 (ex + ey)
  /\ normal (ex + ey + 52) (ex + ey + 54) (rnd (Zpos mx * Zpos my) 1 (ex + ey)).
Proof.
  intros Hx Hy He. unfold SFmul. cbn [xorb].
  rewrite Pos2Z.inj_mul.
  assert (2 ^ 52 * 1 <= Zpos mx * Zpos my) as Ha by nia.
  assert (105 <= Zdigits2 (Zpos mx * Zpos my / 1) <= 106) as Hd.
  { rewrite Z.div_1_r. split.
    - apply (Zdigits2_lower _ 104); [lia |].
      change (2 ^ 104) with (2 ^ 52 * 2 ^ 52). nia.
    - apply Zdigits2_upper. split; [nia |].
      change (2 ^ 106) with (2 ^ 53 * 2 ^ 53). nia. }
  split.
  - apply binary_round_aux_rnd; trivial; [| lia].
    apply record_exact_represents. lia.
  - pose proof (rnd_normal (Zpos mx * Zpos my) 1 (ex + ey) ltac:(lia) Ha)
      as (m & e & E & Hm & Hexp).
    exists m, e. repeat split; trivial; lia.
Qed.

Lemma normal_weaken (lo hi lo' hi' : Z) (x : spec_float) :
  normal lo hi x -> lo' <= lo -> hi <= hi' -> normal lo' hi' x.
Proof.
  intros (m & e & E & Hm & He) Hlo Hhi. exists m, e. repeat split; trivial; lia.
Qed.

Lemma SFleb_zero_normal (lo hi : Z) (x : spec_float) :
  normal lo hi x -> SFleb (S754_zero false) x = true.
Proof. intros (m & e & -> & _). reflexivity. Qed.

Lemma SFleb_normal_zero (lo hi : Z) (x : spec_float) :
  normal lo hi x -> SFleb x (S754_zero false) = true -> False.
Proof. intros (m & e & -> & _). discriminate. Qed.

(** The order of two normal numbers, as an order of values. *)
Lemma SFleb_values (m1 m2 : positive) (e1 e2 : Z) :
  2 ^ 52 <= Zpos m1 < 2 ^ 53 -> 2 ^ 52 <= Zpos m2 < 2 ^ 53 ->
  SFleb (S754_finite false m1 e1) (S754_finite false m2 e2) = true ->
  e1 <= e2 /\ Zpos m1 <= Zpos m2 * 2 ^ (e2 - e1).
Proof.
  intros H1 H2 H. apply SFleb_finite in H. destruct H as [L | [E M]].
  - split; [lia |].
    assert (2 ^ 1 <= 2 ^ (e2 - e1)) by (apply Z.pow_le_mono_r; lia).
    change (2 ^ 1) with 2 in *. nia.
  - subst e2. rewrite Z.sub_diag. simpl. lia.
Qed.

(** *** Dividing and multiplying by a positive normal constant *)

Section ByConstant.

Variables (mc : positive) (ec lo hi : Z).
Hypothesis Hmc : 2 ^ 52 <= Zpos mc < 2 ^ 53.

Let c : spec_float := S754_finite false mc ec.

(** Division by [c] keeps the order, and keeps zero and normal numbers
    zero and normal. *)
Lemma SFdiv_mono (x1 x2 : spec_float) :
  -900 <= lo - ec -> hi - ec <= 900 ->
  zero_or_normal lo hi x1 -> zero_or_normal lo hi x2 ->
  SFleb x1 x2 = true ->
  SFleb (SFdiv prec emax x1 c) (SFdiv prec emax x2 c) = true
  /\ zero_or_normal (lo - ec - 53) (hi - ec - 51) (SFdiv prec emax x1 c)
  /\ zero_or_normal (lo - ec - 53) (hi - ec - 51) (SFdiv prec emax x2 c).
Proof.
  unfold c. intros Hlo Hhi [-> | N1] [-> | N2] Hle.
  - repeat split; now left.
  - destruct N2 as (m2 & e2 & -> & Hm2 & He2).
    destruct (SFdiv_rnd m2 mc e2 ec Hm2 Hmc ltac:(lia)) as [E2 R2].
    rewrite E2. cbn [SFdiv xorb]. repeat split.
    + eapply SFleb_zero_normal; eassumption.
    + now left.
    + right. eapply normal_weaken; [eassumption | lia | lia].
  - exfalso. eapply SFleb_normal_zero; eassumption.
  - destruct N1 as (m1 & e1 & -> & Hm1 & He1).
    destruct N2 as (m2 & e2 & -> & Hm2 & He2).
    destruct (SFleb_values m1 m2 e1 e2 Hm1 Hm2 Hle) as [Hee Hmm].
    destruct (SFdiv_rnd m1 mc e1 ec Hm1 Hmc ltac:(lia)) as [E1 R1].
    destruct (SFdiv_rnd m2 mc e2 ec Hm2 Hmc ltac:(lia)) as [E2 R2].
    rewrite E1, E2. repeat split.
    + rewrite <- (rnd_scale (Zpos m2 * 2 ^ 53) (Zpos mc) (e2 - ec - 53)
                    (e2 - e1)) by nia.
      replace (e2 - ec - 53 - (e2 - e1)) with (e1 - ec - 53) by lia.
      apply rnd_mono; nia.
    + right. eapply normal_weaken; [eassumption | lia | lia].
    + right. eapply normal_weaken; [eassumption | lia | lia].
Qed.

(** So does multiplication by [c]. *)
Lemma SFmul_mono (x1 x2 : spec_float) :
  -900 <= lo + ec -> hi + ec <= 800 ->
  zero_or_normal lo hi x1 -> zero_or_normal lo hi x2 ->
  SFleb x1 x2 = true ->
  SFleb (SFmul prec emax x1 c) (SFmul prec emax x2 c) = true
  /\ zero_or_normal (lo + ec + 52) (hi + ec + 54) (SFmul prec emax x1 c)
  /\ zero_or_normal (lo + ec + 52) (hi + ec + 54) (SFmul prec emax x2 c).
Proof.
  unfold c. intros Hlo Hhi [-> | N1] [-> | N2] Hle.
  - repeat split; now left.
  - destruct N2 as (m2 & e2 & -> & Hm2 & He2).
    destruct (SFmul_rnd m2 mc e2 ec Hm2 Hmc ltac:(lia)) as [E2 R2].
    rewrite E2. cbn [SFmul xorb]. repeat split.
    + eapply SFleb_zero_normal; eassumption.
    + now left.
    + right. eapply normal_weaken; [eassumption | lia | lia].
  - exfalso. eapply SFleb_normal_zero; eassumption.
  - destruct N1 as (m1 & e1 & -> & Hm1 & He1).
    destruct N2 as (m2 & e2 & -> & Hm2 & He2).
    destruct (SFleb_values m1 m2 e1 e2 Hm1 Hm2 Hle) as [Hee Hmm].
    destruct (SFmul_rnd m1 mc e1 ec Hm1 Hmc ltac:(lia)) as [E1 R1].
    destruct (SFmul_rnd m2 mc e2 ec Hm2 Hmc ltac:(lia)) as [E2 R2].
    rewrite E1, E2. repeat split.
    + rewrite <- (rnd_scale (Zpos m2 * Zpos mc) 1 (e2 + ec) (e2 - e1)) by nia.
      replace (e2 + ec - (e2 - e1)) with (e1 + ec) by lia.
      apply rnd_mono; nia.
    + right. eapply normal_weaken; [eassumption | lia | lia].
    + right. eapply normal_weaken; [eassumption | lia | lia].
Qed.

End ByConstant.

(** *** Sums *)

Lemma pos_iter_xO (p s : positive) :
  Zpos (Pos.iter xO p s) = Zpos p * 2 ^ Zpos s.
Proof.
  induction s as [| s IH] using Pos.peano_ind.
  - cbn [Pos.iter]. rewrite Pos2Z.inj_xO, Z.pow_1_r. lia.
  - rewrite Pos.iter_succ, Pos2Z.inj_xO, IH, Pos2Z.inj_succ, Z.pow_succ_r
      by lia.
    ring.
Qed.

Lemma shl_align_value (m : positive) (e e' : Z) :
  e' <= e -> Zpos (fst (shl_align m e e')) = Zpos m * 2 ^ (e - e').
Proof.
  intros H. unfold shl_align. destruct (e' - e) as [| d | d] eqn:E; try lia.
  - replace (e - e') with 0 by lia. cbn [fst]. now rewrite Z.pow_0_r, Z.mul_1_r.
  - cbn [fst]. rewrite pos_iter_xO. f_equal. f_equal. lia.
Qed.

(** Rounding an integer mantissa: [binary_round]. *)
Lemma binary_round_rnd (p : positive) (e : Z) :
  -1021 <= Zdigits2 (Zpos p) + e <= 1023 ->
  binary_round prec emax false p e = rnd (Zpos p * 2 ^ 53) 1 (e - 53).
Proof.
  intros HK. unfold binary_round.
  change (Z.pos (digits2_pos p)) with (Zdigits2 (Zpos p)).
  pose proof (Zdigits2_bounds (Zpos p) ltac:(lia)) as Hd.
  set (d := Zdigits2 (Zpos p)) in *.
  assert (1 <= d) as Hd1 by (unfold d; simpl; lia).
  rewrite fexp_normal by lia. unfold shl_align.
  replace (d + e - 53 - e) with (d - 53) by lia.
  destruct (d - 53) as [| s | s] eqn:E.
  - assert (d = 53) as Ed by lia. rewrite Ed in Hd.
    change (53 - 1) with 52 in Hd.
    rewrite (binary_round_aux_rnd _ _ _ (Zpos p) 1).
    + rewrite <- (rnd_scale (Zpos p) 1 e 53) by lia. reflexivity.
    + apply record_exact_represents. lia.
    + lia.
    + rewrite Z.div_1_r. fold d. lia.
  - assert (2 ^ 52 <= 2 ^ (d - 1)) by (apply Z.pow_le_mono_r; lia).
    rewrite (binary_round_aux_rnd _ _ _ (Zpos p) 1).
    + rewrite <- (rnd_scale (Zpos p) 1 e 53) by lia. reflexivity.
    + apply record_exact_represents. lia.
    + lia.
    + rewrite Z.div_1_r. fold d. lia.
  - assert (Zpos s = 53 - d) as Es by lia.
    assert (2 ^ 52 = 2 ^ (d - 1) * 2 ^ Zpos s) as E52
        by (rewrite <- Z.pow_add_r by lia; f_equal; lia).
    assert (2 ^ 53 = 2 ^ d * 2 ^ Zpos s) as E53
        by (rewrite <- Z.pow_add_r by lia; f_equal; lia).
    assert (0 < 2 ^ Zpos s) as Hps by pow_positive.
    assert (2 ^ 52 <= Zpos p * 2 ^ Zpos s < 2 ^ 53) as Hrange by nia.
    rewrite (binary_round_aux_rnd _ _ _ (Zpos (Pos.iter xO p s)) 1).
    + rewrite pos_iter_xO.
      rewrite <- (rnd_scale (Zpos p * 2 ^ Zpos s) 1 (d + e - 53) d) by lia.
      f_equal; [| lia].
      rewrite <- Z.mul_assoc, <- Z.pow_add_r by lia. do 2 f_equal. lia.
    + apply record_exact_represents. lia.
    + rewrite pos_iter_xO. lia.
    + rewrite Z.div_1_r, pos_iter_xO.
      rewrite (Zdigits2_unique _ 53); [lia | | lia].
      change (53 - 1) with 52. lia.
Qed.

(** A normal number is the rounding of its own value. *)
Lemma rnd_exact (m : positive) (e : Z) :
  2 ^ 52 <= Zpos m < 2 ^ 53 ->
  rnd (Zpos m * 2 ^ 53) 1 (e - 53) = S754_finite false m e.
Proof.
  intros Hm. rewrite rnd_scale by lia. unfold rnd.
  rewrite Z.div_1_r, digits_normal by assumption.
  replace (1 * 2 ^ (53 - 53)) with 1 by reflexivity.
  assert (rne_div (Zpos m) 1 = Zpos m) as ->
      by (rewrite <- (Z.mul_1_r (Zpos m)) at 1; apply rne_div_exact; lia).
  destruct (Z.eqb_spec (Zpos m) (2 ^ 53)); [lia |].
  rewrite Pos2Z.id. f_equal. lia.
Qed.

Lemma zero_or_normal_weaken (lo hi lo' hi' : Z) (x : spec_float) :
  zero_or_normal lo hi x -> lo' <= lo -> hi <= hi' -> zero_or_normal lo' hi' x.
Proof.
  intros [-> | N] Hlo Hhi; [now left | right].
  eapply normal_weaken; eassumption.
Qed.

Lemma val_mono (lo hi : Z) (x1 x2 : spec_float) :
  zero_or_normal lo hi x1 -> zero_or_normal lo hi x2 ->
  SFleb x1 x2 = true -> val lo x1 <= val lo x2.
Proof.
  intros [-> | N1] [-> | N2] Hle.
  - cbn [val]. lia.
  - destruct N2 as (m2 & e2 & -> & Hm2 & He2). cbn [val].
    assert (0 < 2 ^ (e2 - lo)) by pow_positive. nia.
  - exfalso. eapply SFleb_normal_zero; eassumption.
  - destruct N1 as (m1 & e1 & -> & Hm1 & He1).
    destruct N2 as (m2 & e2 & -> & Hm2 & He2).
    destruct (SFleb_values m1 m2 e1 e2 Hm1 Hm2 Hle) as [Hee Hmm]. cbn [val].
    replace (e2 - lo) with (e2 - e1 + (e1 - lo)) by lia.
    rewrite Z.pow_add_r by lia.
    assert (0 < 2 ^ (e1 - lo)) by pow_positive. nia.
Qed.

Lemma normal_as_rnd (lo hi : Z) (x : spec_float) :
  normal lo hi x ->
  x = rnd (val lo x * 2 ^ 53) 1 (lo - 53) /\ 2 ^ 52 <= val lo x.
Proof.
  intros (m & e & -> & Hm & He). cbn [val].
  assert (0 < 2 ^ (e - lo)) by pow_positive.
  split; [| nia].
  rewrite <- (rnd_exact m e Hm).
  rewrite <- (rnd_scale (Zpos m * 2 ^ 53) 1 (e - 53) (e - lo)) by lia.
  f_equal; [ring | lia].
Qed.

Lemma SFadd_rnd (mx my : positive) (ex ey lo : Z) :
  2 ^ 52 <= Zpos mx < 2 ^ 53 -> 2 ^ 52 <= Zpos my < 2 ^ 53 ->
  -900 <= lo -> lo <= ex <= 900 -> lo <= ey <= 900 ->
  SFadd prec emax (S754_finite false mx ex) (S754_finite false my ey)
  = rnd ((Zpos mx * 2 ^ (ex - lo) + Zpos my * 2 ^ (ey - lo)) * 2 ^ 53) 1
      (lo - 53).
Proof.
  intros Hx Hy Hlo Hex Hey. unfold SFadd, cond_Zopp.
  set (ez := Z.min ex ey).
  rewrite !shl_align_value by (unfold ez; lia).
  assert (0 < 2 ^ (ex - ez)) as Px by (apply Z.pow_pos_nonneg; unfold ez; lia).
  assert (0 < 2 ^ (ey - ez)) as Py by (apply Z.pow_pos_nonneg; unfold ez; lia).
  assert (0 < 2 ^ (ez - lo)) as Pz by (apply Z.pow_pos_nonneg; unfold ez; lia).
  assert (2 ^ (ex - lo) = 2 ^ (ex - ez) * 2 ^ (ez - lo)) as Ex
      by (rewrite <- Z.pow_add_r by (unfold ez; lia); f_equal; lia).
  assert (2 ^ (ey - lo) = 2 ^ (ey - ez) * 2 ^ (ez - lo)) as Ey
      by (rewrite <- Z.pow_add_r by (unfold ez; lia); f_equal; lia).
  rewrite Ex, Ey.
  set (S := Zpos mx * 2 ^ (ex - ez) + Zpos my * 2 ^ (ey - ez)).
  assert (2 ^ 52 <= S) as HS by (unfold S; nia).
  assert (S < 2 ^ (54 + (Z.max ex ey - ez))) as HSu.
  { rewrite Z.pow_add_r by (unfold ez; lia).
    assert (2 ^ (ex - ez) <= 2 ^ (Z.max ex ey - ez))
      by (apply Z.pow_le_mono_r; unfold ez; lia).
    assert (2 ^ (ey - ez) <= 2 ^ (Z.max ex ey - ez))
      by (apply Z.pow_le_mono_r; unfold ez; lia).
    change (2 ^ 54) with (2 * 2 ^ 53). unfold S. nia. }
  assert (53 <= Zdigits2 S <= 54 + (Z.max ex ey - ez)) as Hd.
  { split; [apply (Zdigits2_lower _ 52); lia |].
    apply Zdigits2_upper. lia. }
  destruct S as [| p | p] eqn:ES; try lia.
  unfold binary_normalize. rewrite binary_round_rnd by (unfold ez in *; lia).
  rewrite <- (rnd_scale (Zpos p * 2 ^ 53) 1 (ez - 53) (ez - lo))
    by (unfold ez; lia).
  f_equal; [| lia].
  fold S in ES. rewrite <- ES. unfold S. ring.
Qed.

(** A sum of zeros is zero; any other sum is the rounding of the exact
    sum. *)
Lemma SFadd_val (lo hi : Z) (x y : spec_float) :
  -900 <= lo -> hi <= 900 -> zero_or_normal lo hi x -> zero_or_normal lo hi y ->
  (x = S754_zero false /\ y = S754_zero false
   /\ SFadd prec emax x y = S754_zero false)
  \/ (2 ^ 52 <= val lo x + val lo y
      /\ SFadd prec emax x y
         = rnd ((val lo x + val lo y) * 2 ^ 53) 1 (lo - 53)).
Proof.
  intros Hlo Hhi [-> | Nx] [-> | Ny].
  - left. repeat split.
  - right. destruct (normal_as_rnd lo hi y Ny) as [E H].
    destruct Ny as (m & e & -> & Hm & He).
    cbn [SFadd val] in *. rewrite Z.add_0_l. now split.
  - right. destruct (normal_as_rnd lo hi x Nx) as [E H].
    destruct Nx as (m & e & -> & Hm & He).
    cbn [SFadd val] in *. rewrite Z.add_0_r. now split.
  - destruct Nx as (mx & ex & -> & Hmx & Hex).
    destruct Ny as (my & ey & -> & Hmy & Hey).
    right. cbn [val].
    assert (0 < 2 ^ (ex - lo)) by pow_positive.
    assert (0 < 2 ^ (ey - lo)) by pow_positive.
    split; [nia |]. apply SFadd_rnd; lia.
Qed.

(** Addition is monotone in both arguments. *)
Lemma SFadd_mono (lo hi : Z) (x1 x2 y1 y2 : spec_float) :
  -900 <= lo -> hi <= 900 ->
  zero_or_normal lo hi x1 -> zero_or_normal lo hi x2 ->
  zero_or_normal lo hi y1 -> zero_or_normal lo hi y2 ->
  SFleb x1 x2 = true -> SFleb y1 y2 = true ->
  SFleb (SFadd prec emax x1 y1) (SFadd prec emax x2 y2) = true.
Proof.
  intros Hlo Hhi Vx1 Vx2 Vy1 Vy2 Hx Hy.
  pose proof (val_mono lo hi x1 x2 Vx1 Vx2 Hx) as Hvx.
  pose proof (val_mono lo hi y1 y2 Vy1 Vy2 Hy) as Hvy.
  destruct (SFadd_val lo hi x1 y1 Hlo Hhi Vx1 Vy1)
    as [(-> & -> & ->) | [H1 ->]];
    destruct (SFadd_val lo hi x2 y2 Hlo Hhi Vx2 Vy2)
      as [(-> & -> & ->) | [H2 ->]].
  - reflexivity.
  - eapply SFleb_zero_normal. apply rnd_normal; lia.
  - cbn [val] in Hvx, Hvy. lia.
  - apply rnd_mono; lia.
Qed.

(** The conversion of a length. *)
Lemma float_of_int_SF (z : Z) :
  0 <= z < 2 ^ 63 ->
  Prim2SF (float_of_int z) = binary_normalize prec emax z 0 false.
Proof.
  intros H. unfold float_of_int.
  rewrite of_uint63_spec, Uint63.of_Z_spec, Z.mod_small; trivial.
Qed.

Lemma float_of_int_mono (z1 z2 : Z) :
  0 <= z1 <= z2 -> z2 < 2 ^ 63 ->
  SFleb (Prim2SF (float_of_int z1)) (Prim2SF (float_of_int z2)) = true
  /\ zero_or_normal (-52) 11 (Prim2SF (float_of_int z1))
  /\ zero_or_normal (-52) 11 (Prim2SF (float_of_int z2)).
Proof.
  intros H12 H2. rewrite !float_of_int_SF by lia.
  assert (forall p : positive,
             Zpos p < 2 ^ 63 ->
             binary_normalize prec emax (Zpos p) 0 false
             = rnd (Zpos p * 2 ^ 53) 1 (0 - 53)
             /\ normal (-52) 11 (rnd (Zpos p * 2 ^ 53) 1 (0 - 53))) as Hpos.
  { intros p Hp.
    assert (1 <= Zdigits2 (Zpos p) <= 63) as Hd.
    { split; [apply (Zdigits2_lower _ 0); lia | apply Zdigits2_upper; lia]. }
    split.
    - unfold binary_normalize. apply binary_round_rnd. lia.
    - assert (54 <= Zdigits2 (Zpos p * 2 ^ 53 / 1) <= 116) as HD.
      { rewrite Z.div_1_r. split.
        - apply (Zdigits2_lower _ 53); lia.
        - apply Zdigits2_upper. change (2 ^ 116) with (2 ^ 63 * 2 ^ 53). lia. }
      eapply normal_weaken; [apply rnd_normal; lia | lia | lia]. }
  destruct z1 as [| p1 | p1]; destruct z2 as [| p2 | p2]; try lia.
  - repeat split; now left.
  - destruct (Hpos p2 H2) as [-> N2]. repeat split.
    + eapply SFleb_zero_normal; eassumption.
    + now left.
    + now right.
  - destruct (Hpos p1 ltac:(lia)) as [-> N1].
    destruct (Hpos p2 H2) as [-> N2]. repeat split.
    + apply rnd_mono; lia.
    + now right.
    + now right.
Qed.

(** *** Monotone operations on primitive floats *)

Lemma ordered_weaken (lo hi lo' hi' : Z) (x1 x2 : float) :
  ordered lo hi x1 x2 -> lo' <= lo -> hi <= hi' -> ordered lo' hi' x1 x2.
Proof.
  intros (H & V1 & V2) Hlo Hhi.
  repeat split; trivial; eapply zero_or_normal_weaken; eassumption.
Qed.

Lemma ordered_float_of_int (z1 z2 : Z) :
  0 <= z1 <= z2 -> z2 < 2 ^ 63 ->
  ordered (-52) 11 (float_of_int z1) (float_of_int z2).
Proof. intros H1 H2. now apply float_of_int_mono. Qed.

Lemma ordered_div (lo hi : Z) (x1 x2 c : float) (mc : positive) (ec : Z) :
  ordered lo hi x1 x2 ->
  Prim2SF c = S754_finite false mc ec ->
  2 ^ 52 <= Zpos mc < 2 ^ 53 -> -900 <= lo - ec -> hi - ec <= 900 ->
  ordered (lo - ec - 53) (hi - ec - 51) (x1 / c) (x2 / c).
Proof.
  intros (H & V1 & V2) Hc Hmc Hlo Hhi. unfold ordered.
  rewrite !FloatAxioms.div_spec, Hc. unfold SF64div.
  now apply SFdiv_mono.
Qed.

Lemma ordered_mul (lo hi : Z) (x1 x2 c : float) (mc : positive) (ec : Z) :
  ordered lo hi x1 x2 ->
  Prim2SF c = S754_finite false mc ec ->
  2 ^ 52 <= Zpos mc < 2 ^ 53 -> -900 <= lo + ec -> hi + ec <= 800 ->
  ordered (lo + ec + 52) (hi + ec + 54) (x1 * c) (x2 * c).
Proof.
  intros (H & V1 & V2) Hc Hmc Hlo Hhi. unfold ordered.
  rewrite !FloatAxioms.mul_spec, Hc. unfold SF64mul.
  now apply SFmul_mono.
Qed.

Lemma ordered_add (lo hi : Z) (x1 x2 y1 y2 : float) :
  ordered lo hi x1 x2 -> ordered lo hi y1 y2 ->
  -900 <= lo -> hi <= 900 ->
  (x1 + y1 <=? x2 + y2)%float = true.
Proof.
  intros (Hx & Vx1 & Vx2) (Hy & Vy1 & Vy2) Hlo Hhi.
  rewrite FloatAxioms.leb_spec, !FloatAxioms.add_spec. unfold SF64add.
  now apply SFadd_mono with (lo := lo) (hi := hi).
Qed.

Lemma ordered_leb (lo hi : Z) (x1 x2 : float) :
  ordered lo hi x1 x2 -> (x1 <=? x2)%float = true.
Proof. intros (H & _). now rewrite FloatAxioms.leb_spec. Qed.

(** *** The cost estimator is monotone *)

Lemma word_starts_le (s : str) :
  forall b, (word_starts b s <= List.length s)%nat.
Proof.
  induction s as [| c s IH]; intros b; cbn [word_starts List.length]; [lia |].
  destruct (isspace c).
  - specialize (IH true). lia.
  - specialize (IH false). destruct b; lia.
Qed.

Lemma split_shorter (text : str) : len (split text) <= len text.
Proof.
  unfold len. rewrite split_length. unfold count_words.
  pose proof (word_starts_le text true). lia.
Qed.

(** The input cost, as a function of the number of characters. *)
Lemma input_cost_ordered (n1 n2 : Z) :
  0 <= n1 <= n2 -> n2 < 2 ^ 63 ->
  ordered (-76) (-7)
    (int_truediv n1 INPUT_TOKEN_CHARS / float_of_int 1000000
     * INPUT_COST_PER_MILLION)
    (int_truediv n2 INPUT_TOKEN_CHARS / float_of_int 1000000
     * INPUT_COST_PER_MILLION).
Proof.
  intros H1 H2. unfold int_truediv.
  pose proof (ordered_float_of_int n1 n2 H1 H2) as H.
  apply (ordered_div _ _ _ _ (float_of_int INPUT_TOKEN_CHARS)
           4503599627370496 (-50)) in H; [| reflexivity | lia | lia | lia].
  apply (ordered_div _ _ _ _ (float_of_int 1000000)
           8589934592000000 (-33)) in H; [| reflexivity | lia | lia | lia].
  apply (ordered_mul _ _ _ _ INPUT_COST_PER_MILLION
           4503599627370496 (-53)) in H; [| reflexivity | lia | lia | lia].
  eapply ordered_weaken; [exact H | lia | lia].
Qed.

(** The output cost, as a function of the number of words. *)
Lemma output_cost_ordered (w1 w2 : Z) :
  0 <= w1 <= w2 -> w2 < 2 ^ 63 ->
  ordered (-66) 5
    (int_truediv w1 WORDS_PER_SECOND * float_of_int OUTPUT_TOKENS_PER_SECOND
     / float_of_int 1000000 * float_of_int OUTPUT_COST_PER_MILLION)
    (int_truediv w2 WORDS_PER_SECOND * float_of_int OUTPUT_TOKENS_PER_SECOND
     / float_of_int 1000000 * float_of_int OUTPUT_COST_PER_MILLION).
Proof.
  intros H1 H2. unfold int_truediv.
  pose proof (ordered_float_of_int w1 w2 H1 H2) as H.
  apply (ordered_div _ _ _ _ (float_of_int WORDS_PER_SECOND)
           4503599627370496 (-51)) in H; [| reflexivity | lia | lia | lia].
  apply (ordered_mul _ _ _ _ (float_of_int OUTPUT_TOKENS_PER_SECOND)
           4503599627370496 (-47)) in H; [| reflexivity | lia | lia | lia].
  apply (ordered_div _ _ _ _ (float_of_int 1000000)
           8589934592000000 (-33)) in H; [| reflexivity | lia | lia | lia].
  apply (ordered_mul _ _ _ _ (float_of_int OUTPUT_COST_PER_MILLION)
           5629499534213120 (-49)) in H; [| reflexivity | lia | lia | lia].
  eapply ordered_weaken; [exact H | lia | lia].
Qed.

(** C5.  For two texts, the second no shorter than the first and with no
    fewer whitespace-delimited words, and of a length below [2^63] (the
    bound CPython puts on the length of a [str]), the dictionaries
    [cost_estimator] returns have the same keys in the same order, and each
    of ['input'], ['output'] and ['total'] for the first text is at most
    the one for the second, in binary64 arithmetic. *)
Theorem cost_estimator_monotone (t1 t2 : str) :
  len t2 < 2 ^ 63 ->
  len t1 <= len t2 ->
  len (split t1) <= len (split t2) ->
  Forall2 (fun kv1 kv2 =>
             fst kv1 = fst kv2 /\ (snd kv1 <=? snd kv2)%float = true)
    (cost_estimator t1) (cost_estimator t2).
Proof.
  intros Hmax Hlen Hwords.
  pose proof (len_nonneg t1) as Hn1.
  pose proof (len_nonneg (split t1)) as Hw1.
  pose proof (split_shorter t2) as Hw2.
  pose proof (input_cost_ordered (len t1) (len t2) ltac:(lia) Hmax) as Hi.
  pose proof (output_cost_ordered (len (split t1)) (len (split t2))
                ltac:(lia) ltac:(lia)) as Ho.
  unfold cost_estimator. repeat constructor; cbn [fst snd]; trivial.
  - eapply ordered_leb; exact Hi.
  - eapply ordered_leb; exact Ho.
  - apply ordered_add with (lo := -76) (hi := 5); try lia.
    + eapply ordered_weaken; [exact Hi | lia | lia].
    + eapply ordered_weaken; [exact Ho | lia | lia].
Qed.

Lemma cost_estimator_monotone_witness :
  Forall2 (fun kv1 kv2 =>
             fst kv1 = fst kv2 /\ (snd kv1 <=? snd kv2)%float = true)
    (cost_estimator (of_string "hello"))
    (cost_estimator (of_string "hello world")).
Proof.
  apply (cost_estimator_monotone (of_string "hello") (of_string "hello world"));
    vm_compute; first [reflexivity | discriminate].
Defined.

(** ** More on the chunker *)

Lemma chunks_of_nil_inv (n : nat) (out : list str) :
  chunks_of n [] out -> out = [].
Proof. inversion 1; congruence. Qed.

(** The number of chunks is the length divided by the width, rounded up. *)
Lemma chunks_of_count (n : nat) (rest : str) (out : list str) :
  (1 <= n)%nat -> chunks_of n rest out ->
  len out = (len rest + Z.of_nat n - 1) / Z.of_nat n.
Proof.
  intros Hn. induction 1 as [| rest out Hne Hrest IH].
  - unfold len. simpl. symmetry. apply Z.div_small. lia.
  - unfold len in *. cbn [List.length]. rewrite length_skipn in IH.
    assert (1 <= List.length rest)%nat as Hl
        by (destruct rest; simpl; [congruence | lia]).
    destruct (Nat.le_gt_cases (List.length rest) n) as [Hle | Hgt].
    + replace (List.length rest - n)%nat with 0%nat in IH by lia.
      rewrite Z.div_small in IH by lia.
      apply Z.div_unique with (r := Z.of_nat (List.length rest) - 1); lia.
    + replace (Z.of_nat (List.length rest) + Z.of_nat n - 1)
        with (Z.of_nat (List.length rest - n) + Z.of_nat n - 1 + 1 * Z.of_nat n)
        by lia.
      rewrite Z.div_add by lia. lia.
Qed.

(** The chunk of index [i] comes from the [i]-th window of the text. *)
Lemma chunks_of_nth (n : nat) (rest : str) (out : list str) :
  chunks_of n rest out ->
  forall i : nat, (i < List.length out)%nat ->
    nth_error out i = Some (rstrip (firstn n (skipn (i * n) rest)) ++ marker).
Proof.
  induction 1 as [| rest out Hne Hrest IH]; intros i Hi.
  - simpl in Hi. lia.
  - destruct i as [| i].
    + reflexivity.
    + cbn [nth_error]. cbn [List.length] in Hi. rewrite IH by lia.
      rewrite skipn_skipn.
      now replace (S i * n)%nat with (i * n + n)%nat by (simpl; lia).
Qed.

(** A slice that starts at or after index zero, whatever its end. *)
Lemma slice_from (text : str) (i k : Z) :
  0 <= i -> 0 <= k ->
  slice text i (i + k) = firstn (Z.to_nat k) (skipn (Z.to_nat i) text).
Proof.
  intros Hi Hk. pose proof (len_nonneg text) as Hl. unfold slice, clamp_index.
  destruct (Z.ltb_spec i 0); [lia |]. destruct (Z.ltb_spec (i + k) 0); [lia |].
  destruct (Z.le_gt_cases i (len text)) as [Hin | Hout].
  - rewrite (Z.min_l i) by lia.
    destruct (Z.le_gt_cases (i + k) (len text)) as [Hle | Hgt].
    + rewrite Z.min_l by lia. f_equal. lia.
    + rewrite Z.min_r by lia.
      rewrite !firstn_all2; trivial; rewrite length_skipn; unfold len in *; lia.
  - rewrite !Z.min_r by lia. rewrite Z.sub_diag.
    rewrite (skipn_all2 (n := Z.to_nat i)) by (unfold len in *; lia).
    now rewrite firstn_nil.
Qed.

Lemma rstrip_all_space (s : str) : forallb isspace s = true -> rstrip s = [].
Proof.
  induction s as [| c s IH]; trivial. cbn [forallb rstrip].
  intros H. apply andb_true_iff in H as [Hc Hs]. now rewrite IH, Hc.
Qed.

Lemma rstrip_no_space (s : str) : forallb nonspace s = true -> rstrip s = s.
Proof.
  induction s as [| c s IH]; trivial. cbn [forallb rstrip].
  intros H. apply andb_true_iff in H as [Hc Hs]. rewrite IH by assumption.
  unfold nonspace in Hc. apply negb_true_iff in Hc. rewrite Hc.
  now destruct s.
Qed.

Lemma forallb_firstn_skipn {A : Type} (f : A -> bool) (n : nat) (l : list A) :
  forallb f l = true ->
  forallb f (firstn n l) = true /\ forallb f (skipn n l) = true.
Proof.
  intros H. rewrite <- (firstn_skipn n l), forallb_app in H.
  now apply andb_true_iff in H.
Qed.

Lemma chunks_of_all_space (n : nat) (rest : str) (out : list str) :
  chunks_of n rest out -> forallb isspace rest = true ->
  Forall (eq marker) out.
Proof.
  induction 1 as [| rest out Hne Hrest IH]; intros Hs; constructor.
  - destruct (forallb_firstn_skipn isspace n rest Hs) as [Hf _].
    now rewrite rstrip_all_space.
  - apply IH. now destruct (forallb_firstn_skipn isspace n rest Hs).
Qed.

Lemma chunks_of_pieces (n : nat) (rest : str) (out : list str) :
  (1 <= n)%nat -> chunks_of n rest out -> forallb nonspace rest = true ->
  exists pieces,
    out = map (fun p => p ++ marker) pieces
    /\ concat pieces = rest
    /\ Forall (fun p => 1 <= len p <= Z.of_nat n) pieces.
Proof.
  intros Hn. induction 1 as [| rest out Hne Hrest IH]; intros Hs.
  - exists []. repeat split. constructor.
  - destruct (forallb_firstn_skipn nonspace n rest Hs) as [Hf Hk].
    destruct (IH Hk) as (pieces & -> & Hcat & Hlen).
    exists (firstn n rest :: pieces). repeat split.
    + cbn [map]. now rewrite rstrip_no_space.
    + cbn [concat]. rewrite Hcat. apply firstn_skipn.
    + constructor; trivial. unfold len. rewrite length_firstn.
      destruct rest; [congruence | simpl; lia].
Qed.

Lemma chunks_of_total (n : nat) (rest : str) (out : list str) :
  chunks_of n rest out ->
  2 * len out <= len (concat out) <= len rest + 2 * len out.
Proof.
  induction 1 as [| rest out Hne Hrest IH].
  - unfold len. simpl. lia.
  - cbn [concat]. rewrite !len_app.
    pose proof (rstrip_length (firstn n rest)) as Hr.
    pose proof (length_firstn n rest) as Hf.
    pose proof (length_skipn n rest) as Hk.
    unfold len, marker in *. cbn [List.length]. lia.
Qed.

(** X1.  For a width of at least one character the call returns
    [ceil(len(text) / max_chars)] chunks. *)
Theorem chunk_count (text : str) (n tc : Z) :
  1 <= n * tc ->
  exists out,
    returns text n tc out
    /\ len out = (len text + n * tc - 1) / (n * tc).
Proof.
  intros Hmc.
  destruct (split_text_to_chunks_spec text n tc Hmc) as [out [Hrun Hout]].
  exists out. split; [now exists (S (List.length text)) |].
  assert (1 <= Z.to_nat (n * tc))%nat as Hw by lia.
  rewrite (chunks_of_count _ _ _ Hw Hout). now rewrite Z2Nat.id by lia.
Qed.

Lemma chunk_count_witness :
  exists out,
    returns (of_string "ab cd e") 1 3 out
    /\ len out = (len (of_string "ab cd e") + 1 * 3 - 1) / (1 * 3).
Proof. apply (chunk_count (of_string "ab cd e") 1 3). lia. Defined.

(** X2.  For a width [w] of at least one character, the chunk of index [i]
    is [text[i*w:(i+1)*w].rstrip() + "\n\n"]. *)
Theorem chunk_at_index (text : str) (n tc : Z) :
  1 <= n * tc ->
  exists out,
    returns text n tc out
    /\ forall i, 0 <= i < len out ->
         nth_error out (Z.to_nat i)
         = Some (rstrip (slice text (i * (n * tc)) ((i + 1) * (n * tc)))
                 ++ marker).
Proof.
  intros Hmc.
  destruct (split_text_to_chunks_spec text n tc Hmc) as [out [Hrun Hout]].
  exists out. split; [now exists (S (List.length text)) |].
  intros i Hi. unfold len in Hi.
  rewrite (chunks_of_nth _ _ _ Hout) by lia.
  replace ((i + 1) * (n * tc)) with (i * (n * tc) + n * tc) by ring.
  rewrite slice_from by nia.
  now rewrite (Z2Nat.inj_mul i (n * tc)) by lia.
Qed.

Lemma chunk_at_index_witness :
  exists out,
    returns (of_string "ab cd e") 1 3 out
    /\ forall i, 0 <= i < len out ->
         nth_error out (Z.to_nat i)
         = Some (rstrip (slice (of_string "ab cd e") (i * (1 * 3))
                           ((i + 1) * (1 * 3)))
                 ++ marker).
Proof. apply (chunk_at_index (of_string "ab cd e") 1 3). lia. Defined.

(** X3.  A text of whitespace only is not skipped: it gives
    [ceil(len(text) / max_chars)] chunks, each of them the bare marker
    ["\n\n"]. *)
Theorem whitespace_text_gives_markers (text : str) (n tc : Z) :
  1 <= n * tc -> forallb isspace text = true ->
  exists out,
    returns text n tc out
    /\ out = repeat marker (Z.to_nat ((len text + n * tc - 1) / (n * tc))).
Proof.
  intros Hmc Hs.
  destruct (split_text_to_chunks_spec text n tc Hmc) as [out [Hrun Hout]].
  exists out. split; [now exists (S (List.length text)) |].
  assert (1 <= Z.to_nat (n * tc))%nat as Hw by lia.
  pose proof (chunks_of_count _ _ _ Hw Hout) as Hc.
  rewrite Z2Nat.id in Hc by lia. rewrite <- Hc. unfold len.
  rewrite Nat2Z.id. apply Forall_eq_repeat.
  now apply chunks_of_all_space with (n := Z.to_nat (n * tc)) (rest := text).
Qed.

Lemma whitespace_text_gives_markers_witness :
  exists out,
    returns (of_string "     ") 1 2 out
    /\ out = repeat marker
               (Z.to_nat ((len (of_string "     ") + 1 * 2 - 1) / (1 * 2))).
Proof.
  apply (whitespace_text_gives_markers (of_string "     ") 1 2);
    [lia | reflexivity].
Defined.

(** X4.  A text without any whitespace character comes back unchanged
    between the markers: the chunks are consecutive pieces of the text,
    each of one to [max_chars] characters, followed by the marker. *)
Theorem unspaced_text_is_kept (text : str) (n tc : Z) :
  1 <= n * tc -> forallb nonspace text = true ->
  exists pieces,
    returns text n tc (map (fun p => p ++ marker) pieces)
    /\ concat pieces = text
    /\ Forall (fun p => 1 <= len p <= n * tc) pieces.
Proof.
  intros Hmc Hs.
  destruct (split_text_to_chunks_spec text n tc Hmc) as [out [Hrun Hout]].
  assert (1 <= Z.to_nat (n * tc))%nat as Hw by lia.
  destruct (chunks_of_pieces _ _ _ Hw Hout Hs) as (pieces & -> & Hcat & Hlen).
  exists pieces. split; [now exists (S (List.length text)) |].
  split; trivial. eapply Forall_impl; [| exact Hlen].
  intros p Hp. cbv beta in Hp. lia.
Qed.

Lemma unspaced_text_is_kept_witness :
  exists pieces,
    returns (of_string "abcdefg") 1 3 (map (fun p => p ++ marker) pieces)
    /\ concat pieces = of_string "abcdefg"
    /\ Forall (fun p => 1 <= len p <= 1 * 3) pieces.
Proof.
  apply (unspaced_text_is_kept (of_string "abcdefg") 1 3); [lia | reflexivity].
Defined.

(** X5.  The chunks taken together are never longer than the text plus two
    characters for each chunk, and never shorter than two characters for
    each chunk. *)
Theorem chunks_total_length (text : str) (n tc : Z) :
  1 <= n * tc ->
  exists out,
    returns text n tc out
    /\ 2 * len out <= len (concat out) <= len text + 2 * len out.
Proof.
  intros Hmc.
  destruct (split_text_to_chunks_spec text n tc Hmc) as [out [Hrun Hout]].
  exists out. split; [now exists (S (List.length text)) |].
  now apply chunks_of_total with (n := Z.to_nat (n * tc)).
Qed.

Lemma chunks_total_length_witness :
  exists out,
    returns (of_string "ab cd e") 1 3 out
    /\ 2 * len out <= len (concat out)
       <= len (of_string "ab cd e") + 2 * len out.
Proof. apply (chunks_total_length (of_string "ab cd e") 1 3). lia. Defined.

(** X6.  A non-empty text that fits in one chunk gives exactly one chunk:
    the text without its trailing whitespace, then the marker. *)
Theorem short_text_is_one_chunk (text : str) (n tc : Z) :
  text <> [] -> len text <= n * tc ->
  returns text n tc [rstrip text ++ marker].
Proof.
  intros Hne Hlen.
  assert (1 <= len text) as Hl
      by (destruct text; [congruence | unfold len; simpl; lia]).
  destruct (split_text_to_chunks_spec text n tc ltac:(lia)) as [out [Hrun Hout]].
  exists (S (List.length text)). rewrite Hrun. f_equal.
  inversion Hout as [| rest out' _ Hrest E1 E2]; [congruence |].
  rewrite skipn_all2 in Hrest by (unfold len in *; lia).
  apply chunks_of_nil_inv in Hrest. subst out'.
  now rewrite firstn_all2 by (unfold len in *; lia).
Qed.

Lemma short_text_is_one_chunk_witness :
  returns (of_string "hello  ") 7000 4 [rstrip (of_string "hello  ") ++ marker].
Proof.
  apply (short_text_is_one_chunk (of_string "hello  ") 7000 4);
    [discriminate | vm_compute; discriminate].
Defined.

(** ** More on the cost estimator *)

Lemma SFadd_zero_r (lo hi : Z) (x : spec_float) :
  zero_or_normal lo hi x -> SFadd prec emax x (S754_zero false) = x.
Proof. intros [-> | (m & e & -> & _)]; reflexivity. Qed.

Lemma SFadd_zero_l (lo hi : Z) (x : spec_float) :
  zero_or_normal lo hi x -> SFadd prec emax (S754_zero false) x = x.
Proof. intros [-> | (m & e & -> & _)]; reflexivity. Qed.

Lemma SFleb_refl (lo hi : Z) (x : spec_float) :
  zero_or_normal lo hi x -> SFleb x x = true.
Proof.
  intros [-> | (m & e & -> & _)]; [reflexivity |].
  apply SFleb_finite. right. split; [reflexivity | lia].
Qed.

Lemma SFleb_zero_any (lo hi : Z) (x : spec_float) :
  zero_or_normal lo hi x -> SFleb (S754_zero false) x = true.
Proof.
  intros [-> | N]; [reflexivity |]. eapply SFleb_zero_normal; eassumption.
Qed.

(** A sum is at least each of its terms. *)
Lemma SFadd_ge (lo hi : Z) (x y : spec_float) :
  -900 <= lo -> hi <= 900 ->
  zero_or_normal lo hi x -> zero_or_normal lo hi y ->
  SFleb x (SFadd prec emax x y) = true /\ SFleb y (SFadd prec emax x y) = true.
Proof.
  intros Hlo Hhi Vx Vy.
  assert (zero_or_normal lo hi (S754_zero false)) as V0 by now left.
  split.
  - rewrite <- (SFadd_zero_r lo hi x Vx) at 1.
    apply SFadd_mono with (lo := lo) (hi := hi); trivial.
    + eapply SFleb_refl; eassumption.
    + eapply SFleb_zero_any; eassumption.
  - rewrite <- (SFadd_zero_l lo hi y Vy) at 1.
    apply SFadd_mono with (lo := lo) (hi := hi); trivial.
    + eapply SFleb_zero_any; eassumption.
    + eapply SFleb_refl; eassumption.
Qed.

(** The two costs are zero or normal numbers, for lengths below [2^63]. *)
Lemma costs_in_range (text : str) :
  len text < 2 ^ 63 ->
  let i := (int_truediv (len text) INPUT_TOKEN_CHARS / float_of_int 1000000
            * INPUT_COST_PER_MILLION)%float in
  let o := (int_truediv (len (split text)) WORDS_PER_SECOND
            * float_of_int OUTPUT_TOKENS_PER_SECOND / float_of_int 1000000
            * float_of_int OUTPUT_COST_PER_MILLION)%float in
  zero_or_normal (-76) 5 (Prim2SF i) /\ zero_or_normal (-76) 5 (Prim2SF o).
Proof.
  intros Hmax. cbv zeta.
  pose proof (len_nonneg text) as Hn.
  pose proof (len_nonneg (split text)) as Hw.
  pose proof (split_shorter text) as Hs.
  destruct (input_cost_ordered (len text) (len text) ltac:(lia) Hmax)
    as (_ & Vi & _).
  destruct (output_cost_ordered (len (split text)) (len (split text))
              ltac:(lia) ltac:(lia)) as (_ & Vo & _).
  split; eapply zero_or_normal_weaken; try eassumption; lia.
Qed.

(** X7.  For a text of a length below [2^63], the total cost is at least
    the input cost and at least the output cost. *)
Theorem total_cost_dominates (text : str) :
  len text < 2 ^ 63 ->
  exists i o t,
    cost_estimator text
    = [("input"%string, i); ("output"%string, o); ("total"%string, t)]
    /\ (i <=? t)%float = true /\ (o <=? t)%float = true.
Proof.
  intros Hmax. destruct (costs_in_range text Hmax) as [Vi Vo].
  eexists; eexists; eexists. split; [reflexivity |].
  rewrite !FloatAxioms.leb_spec, FloatAxioms.add_spec. unfold SF64add.
  apply SFadd_ge with (lo := -76) (hi := 5); trivial; lia.
Qed.

Lemma total_cost_dominates_witness :
  exists i o t,
    cost_estimator (of_string "hello world")
    = [("input"%string, i); ("output"%string, o); ("total"%string, t)]
    /\ (i <=? t)%float = true /\ (o <=? t)%float = true.
Proof.
  apply (total_cost_dominates (of_string "hello world")). reflexivity.
Defined.

(** *** When a cost is zero *)

Lemma float_of_int_normal (z : Z) :
  0 < z < 2 ^ 63 -> normal (-52) 11 (Prim2SF (float_of_int z)).
Proof.
  intros Hz. rewrite float_of_int_SF by lia.
  destruct z as [| p | p]; try lia.
  assert (1 <= Zdigits2 (Zpos p) <= 63) as Hd.
  { split; [apply (Zdigits2_lower _ 0); lia | apply Zdigits2_upper; lia]. }
  unfold binary_normalize. rewrite binary_round_rnd by lia.
  assert (54 <= Zdigits2 (Zpos p * 2 ^ 53 / 1) <= 116) as HD.
  { rewrite Z.div_1_r. split.
    - apply (Zdigits2_lower _ 53); lia.
    - apply Zdigits2_upper. change (2 ^ 116) with (2 ^ 63 * 2 ^ 53). lia. }
  eapply normal_weaken; [apply rnd_normal; lia | lia | lia].
Qed.

Lemma normal_div (lo hi : Z) (x c : float) (mc : positive) (ec : Z) :
  normal lo hi (Prim2SF x) ->
  Prim2SF c = S754_finite false mc ec ->
  2 ^ 52 <= Zpos mc < 2 ^ 53 -> -900 <= lo - ec -> hi - ec <= 900 ->
  normal (lo - ec - 53) (hi - ec - 51) (Prim2SF (x / c)).
Proof.
  intros (m & e & E & Hm & He) Hc Hmc Hlo Hhi.
  rewrite FloatAxioms.div_spec, Hc, E. unfold SF64div.
  destruct (SFdiv_rnd m mc e ec Hm Hmc ltac:(lia)) as [-> N].
  eapply normal_weaken; [exact N | lia | lia].
Qed.

Lemma normal_mul (lo hi : Z) (x c : float) (mc : positive) (ec : Z) :
  normal lo hi (Prim2SF x) ->
  Prim2SF c = S754_finite false mc ec ->
  2 ^ 52 <= Zpos mc < 2 ^ 53 -> -900 <= lo + ec -> hi + ec <= 800 ->
  normal (lo + ec + 52) (hi + ec + 54) (Prim2SF (x * c)).
Proof.
  intros (m & e & E & Hm & He) Hc Hmc Hlo Hhi.
  rewrite FloatAxioms.mul_spec, Hc, E. unfold SF64mul.
  destruct (SFmul_rnd m mc e ec Hm Hmc ltac:(lia)) as [-> N].
  eapply normal_weaken; [exact N | lia | lia].
Qed.

Lemma normal_is_positive (lo hi : Z) (x : float) :
  normal lo hi (Prim2SF x) -> (0 <? x)%float = true.
Proof.
  intros (m & e & E & _). rewrite FloatAxioms.ltb_spec, E. reflexivity.
Qed.

(** The input cost of at least one character does not round to zero. *)
Lemma input_cost_normal (n : Z) :
  0 < n < 2 ^ 63 ->
  normal (-76) (-7)
    (Prim2SF (int_truediv n INPUT_TOKEN_CHARS / float_of_int 1000000
              * INPUT_COST_PER_MILLION)).
Proof.
  intros Hn. unfold int_truediv.
  pose proof (float_of_int_normal n Hn) as H.
  apply (normal_div _ _ _ (float_of_int INPUT_TOKEN_CHARS)
           4503599627370496 (-50)) in H; [| reflexivity | lia | lia | lia].
  apply (normal_div _ _ _ (float_of_int 1000000)
           8589934592000000 (-33)) in H; [| reflexivity | lia | lia | lia].
  apply (normal_mul _ _ _ INPUT_COST_PER_MILLION
           4503599627370496 (-53)) in H; [| reflexivity | lia | lia | lia].
  eapply normal_weaken; [exact H | lia | lia].
Qed.

(** Nor does the output cost of at least one word. *)
Lemma output_cost_normal (w : Z) :
  0 < w < 2 ^ 63 ->
  normal (-66) 5
    (Prim2SF (int_truediv w WORDS_PER_SECOND
              * float_of_int OUTPUT_TOKENS_PER_SECOND / float_of_int 1000000
              * float_of_int OUTPUT_COST_PER_MILLION)).
Proof.
  intros Hw. unfold int_truediv.
  pose proof (float_of_int_normal w Hw) as H.
  apply (normal_div _ _ _ (float_of_int WORDS_PER_SECOND)
           4503599627370496 (-51)) in H; [| reflexivity | lia | lia | lia].
  apply (normal_mul _ _ _ (float_of_int OUTPUT_TOKENS_PER_SECOND)
           4503599627370496 (-47)) in H; [| reflexivity | lia | lia | lia].
  apply (normal_div _ _ _ (float_of_int 1000000)
           8589934592000000 (-33)) in H; [| reflexivity | lia | lia | lia].
  apply (normal_mul _ _ _ (float_of_int OUTPUT_COST_PER_MILLION)
           5629499534213120 (-49)) in H; [| reflexivity | lia | lia | lia].
  eapply normal_weaken; [exact H | lia | lia].
Qed.

Lemma split_all_space (s : str) : forallb isspace s = true -> split s = [].
Proof.
  unfold split. induction s as [| c s IH]; trivial. cbn [forallb split_from].
  intros H. apply andb_true_iff in H as [Hc Hs]. rewrite Hc. now apply IH.
Qed.

(** X8.  For a text of a length below [2^63], the input cost is above zero
    exactly when the text is not empty, and the output cost is above zero
    exactly when the text has a word: no cost rounds down to zero. *)
Theorem cost_positive_iff (text : str) :
  len text < 2 ^ 63 ->
  exists i o t,
    cost_estimator text
    = [("input"%string, i); ("output"%string, o); ("total"%string, t)]
    /\ ((0 <? i)%float = true <-> text <> [])
    /\ ((0 <? o)%float = true <-> split text <> []).
Proof.
  intros Hmax. pose proof (split_shorter text) as Hs.
  eexists; eexists; eexists. split; [reflexivity |]. split.
  - destruct text as [| c text].
    + split; [intros H; vm_compute in H; discriminate | congruence].
    + split; [discriminate | intros _].
      eapply normal_is_positive. apply input_cost_normal.
      unfold len in *. cbn [List.length] in *. lia.
  - destruct (split text) as [| w ws].
    + split; [intros H; vm_compute in H; discriminate | congruence].
    + split; [discriminate | intros _].
      eapply normal_is_positive. apply output_cost_normal.
      unfold len in *. cbn [List.length] in *. lia.
Qed.

Lemma cost_positive_iff_witness :
  exists i o t,
    cost_estimator (of_string "  ")
    = [("input"%string, i); ("output"%string, o); ("total"%string, t)]
    /\ ((0 <? i)%float = true <-> of_string "  " <> [])
    /\ ((0 <? o)%float = true <-> split (of_string "  ") <> []).
Proof. apply (cost_positive_iff (of_string "  ")). reflexivity. Defined.

(** X9.  For a text without any word (empty, or whitespace only) of a
    length below [2^63], the output cost is zero and the total cost is the
    input cost. *)
Theorem cost_without_words (text : str) :
  len text < 2 ^ 63 -> forallb isspace text = true ->
  let i := (float_of_int (len text) / 4 / 1000000 * 0.5)%float in
  cost_estimator text
  = [("input"%string, i); ("output"%string, 0%float); ("total"%string, i)].
Proof.
  intros Hmax Hs. cbv zeta.
  destruct (costs_in_range text Hmax) as [Vi _]. cbv zeta in Vi.
  unfold cost_estimator. rewrite (split_all_space text Hs).
  change (len (@nil str)) with 0.
  change (int_truediv 0 WORDS_PER_SECOND
          * float_of_int OUTPUT_TOKENS_PER_SECOND / float_of_int 1000000
          * float_of_int OUTPUT_COST_PER_MILLION)%float with 0%float.
  set (i := (int_truediv (len text) INPUT_TOKEN_CHARS / float_of_int 1000000
             * INPUT_COST_PER_MILLION)%float) in *.
  assert ((i + 0)%float = i) as ->.
  { apply Prim2SF_inj. rewrite FloatAxioms.add_spec. unfold SF64add.
    change (Prim2SF 0) with (S754_zero false).
    eapply SFadd_zero_r; eassumption. }
  reflexivity.
Qed.

Lemma cost_without_words_witness :
  let i := (float_of_int (len (of_string "   ")) / 4 / 1000000 * 0.5)%float in
  cost_estimator (of_string "   ")
  = [("input"%string, i); ("output"%string, 0%float); ("total"%string, i)].
Proof.
  apply (cost_without_words (of_string "   ")); reflexivity.
Defined.

(** ** More on the audio assembler *)

(** X10.  For audio parameters with a sample width other than 3 and a
    frame width [sample_width * channels] other than zero: given the
    buffers of two lists put one after the other, [save_mp3_file] raises
    when the bytes of all the buffers together are not a whole number of
    frames, and otherwise calls [export] on a segment with the given
    parameters whose data are the buffers of the first list followed by
    those of the second, no byte more and no byte less. *)
Theorem save_mp3_file_appends (filename : string) (channels rate width : Z)
  (parts1 parts2 : list bytes) :
  width <> 3 ->
  width * channels <> 0 ->
  let total :=
    Z.of_nat (list_sum (map (@List.length byte) (parts1 ++ parts2))) in
  save_mp3_file filename (PcmList (parts1 ++ parts2)) channels rate width
  = if total mod (width * channels) =? 0
    then Some {| exported :=
                   {| data := concat parts1 ++ concat parts2;
                      sample_width := width; frame_rate := rate;
                      channels := channels |};
                 out_file := filename; format := "mp3" |}
    else None.
Proof.
  intros Hw Hf. cbv zeta.
  rewrite save_mp3_file_joined, AudioSegment_init_plain by assumption.
  unfold len. rewrite length_concat, concat_app.
  now destruct (Z.of_nat (list_sum (map (@List.length byte) (parts1 ++ parts2)))
                mod (width * channels) =? 0).
Qed.

Lemma save_mp3_file_appends_witness :
  save_mp3_file "out.mp3" (PcmList ([[x01; x02]] ++ [[x03]; [x04]])) 1 24000 2
  = Some {| exported :=
              {| data := [x01; x02; x03; x04]; sample_width := 2;
                 frame_rate := 24000; channels := 1 |};
            out_file := "out.mp3"; format := "mp3" |}.
Proof.
  apply (save_mp3_file_appends "out.mp3" 1 24000 2 [[x01; x02]] [[x03]; [x04]]);
    lia.
Defined.

(** ** The cells that call the service: results *)

Lemma seconds_slept_app (t1 t2 : list event) :
  seconds_slept (t1 ++ t2) = seconds_slept t1 + seconds_slept t2.
Proof.
  induction t1 as [| e t1 IH]; [reflexivity |].
  cbn [app seconds_slept fold_right]. fold (seconds_slept (t1 ++ t2)).
  fold (seconds_slept t1). rewrite IH. destruct e; lia.
Qed.

(** What the passes of a run without failure add up to: 120 seconds for
    each chunk, one request for each chunk, in order, and no export. *)
Lemma passes_events_summary (chunks : list str) :
  forall idx,
    seconds_slept (passes_events idx chunks) = 120 * len chunks
    /\ requests_of (passes_events idx chunks) = map request_for chunks
    /\ exports_of (passes_events idx chunks) = [].
Proof.
  induction chunks as [| c rest IH]; intros idx.
  - repeat split.
  - destruct (IH (idx + 1)) as (Hs & Hr & He).
    cbn [passes_events pass_events app]. unfold requests_of, exports_of in *.
    cbn [flat_map app map seconds_slept fold_right].
    fold (seconds_slept (passes_events (idx + 1) rest)).
    rewrite Hs, Hr, He. unfold len. cbn [List.length]. repeat split. lia.
Qed.

Section Driver.

Variable api : Type.
Variable generate_content : api -> request -> api * option bytes.

(** One pass of the loop: the line, the request, and on an answer the
    pause and the rest of the loop; on a failure the run ends. *)
Lemma for_each_chunk_cons (idx : Z) (c : str) (rest : list str)
  (acc : list bytes) (w : world api) :
  for_each_chunk api generate_content idx (c :: rest) acc w
  = match generate_content (service w) (request_for c) with
    | (s1, Some d) =>
        for_each_chunk api generate_content (idx + 1) rest (acc ++ [d])
          {| service := s1; trace := trace w ++ pass_events idx c |}
    | (s1, None) =>
        ({| service := s1;
            trace := trace w ++ [Printed (progress_line idx);
                                 Requested (request_for c)] |}, None)
    end.
Proof.
  cbn [for_each_chunk]. unfold bind, print, sleep, emit, generate.
  cbn [service trace].
  destruct (generate_content (service w) (request_for c)) as [s1 [d |]];
    cbn [service trace]; unfold pass_events; rewrite <- !app_assoc;
    reflexivity.
Qed.

(** The loop, from any index, against the service run on the same
    requests: same final state of the service, same answers; the trace of
    a run without failure, and the trace of a run up to its failure. *)
Lemma for_each_chunk_run (chunks : list str) :
  forall (idx : Z) (acc : list bytes) (w : world api),
    let w' := fst (for_each_chunk api generate_content idx chunks acc w) in
    let r := snd (for_each_chunk api generate_content idx chunks acc w) in
    let s' := fst (serve api generate_content (service w)
                     (map request_for chunks)) in
    let ds := snd (serve api generate_content (service w)
                     (map request_for chunks)) in
    service w' = s'
    /\ r = option_map (app acc) ds
    /\ match ds with
       | Some ds =>
           trace w' = trace w ++ passes_events idx chunks
           /\ List.length ds = List.length chunks
       | None =>
           exists (k : nat) (chunk : str),
             nth_error chunks k = Some chunk
             /\ trace w'
                = trace w ++ passes_events idx (firstn k chunks)
                  ++ [Printed (progress_line (idx + Z.of_nat k));
                      Requested (request_for chunk)]
       end.
Proof.
  induction chunks as [| c rest IH]; intros idx acc w; cbv zeta.
  - cbn. rewrite !app_nil_r. repeat split.
  - rewrite for_each_chunk_cons. cbn [map serve].
    destruct (generate_content (service w) (request_for c)) as [s1 [d |]].
    + specialize (IH (idx + 1) (acc ++ [d])
                    {| service := s1; trace := trace w ++ pass_events idx c |}).
      cbv zeta in IH. cbn [service trace] in IH.
      destruct IH as (Hs & Hr & Ht).
      destruct (serve api generate_content s1 (map request_for rest))
        as [s2 [ds |]]; cbn [fst snd option_map] in *.
      * destruct Ht as [Ht Hl]. repeat split; trivial.
        -- rewrite Hr, <- app_assoc. reflexivity.
        -- rewrite Ht. cbn [passes_events]. now rewrite <- app_assoc.
        -- cbn [List.length]. now rewrite Hl.
      * destruct Ht as (k & chunk & Hk & Ht). repeat split; trivial.
        exists (S k), chunk. split; trivial.
        rewrite Ht. cbn [firstn passes_events]. rewrite <- !app_assoc.
        replace (idx + 1 + Z.of_nat k) with (idx + Z.of_nat (S k)) by lia.
        reflexivity.
    + cbn [fst snd option_map service trace]. repeat split.
      exists 0%nat, c. split; trivial.
      cbn [firstn passes_events app]. now rewrite Z.add_0_r.
Qed.

End Driver.

Lemma exports_of_app (t1 t2 : list event) :
  exports_of (t1 ++ t2) = exports_of t1 ++ exports_of t2.
Proof. apply flat_map_app. Qed.

Lemma world_eta {api : Type} (w : world api) :
  w = {| service := service w; trace := trace w |}.
Proof. now destruct w. Qed.

Lemma len_prompt : len PROMPT_FOR_READING = 48.
Proof. reflexivity. Qed.

(** X11.  The loop sends the requests of the chunks to the service one
    after the other and in order, stops at the first one that fails, and
    returns the answers in the order of the chunks: its result and the
    state it leaves the service in are those of the service run on that
    sequence of requests. *)
Theorem generate_speech_serves (api : Type)
  (generate_content : api -> request -> api * option bytes)
  (chunks : list str) (w : world api) :
  (service (fst (generate_speech api generate_content chunks w)),
   snd (generate_speech api generate_content chunks w))
  = serve api generate_content (service w) (map request_for chunks).
Proof.
  destruct (for_each_chunk_run api generate_content chunks 0 [] w)
    as (Hs & Hr & _).
  unfold generate_speech. rewrite Hs, Hr.
  destruct (serve api generate_content (service w) (map request_for chunks))
    as [s' [ds |]]; reflexivity.
Qed.

(** X12.  When no call fails, the loop returns one buffer for each chunk,
    and what it does is, for each chunk in order: print the line with the
    index of the chunk, counted from zero, send the request of the chunk,
    sleep 120 seconds, also after the last chunk.  That makes one request
    for each chunk and 120 seconds of sleep for each chunk. *)
Theorem generate_speech_trace (api : Type)
  (generate_content : api -> request -> api * option bytes)
  (chunks : list str) (w : world api) (out : list bytes) :
  snd (generate_speech api generate_content chunks w) = Some out ->
  len out = len chunks
  /\ trace (fst (generate_speech api generate_content chunks w))
     = trace w ++ passes_events 0 chunks
  /\ requests_of (passes_events 0 chunks) = map request_for chunks
  /\ seconds_slept (passes_events 0 chunks) = 120 * len chunks.
Proof.
  intros Hout.
  destruct (for_each_chunk_run api generate_content chunks 0 [] w)
    as (_ & Hr & Ht).
  destruct (passes_events_summary chunks 0) as (Hsl & Hrq & _).
  unfold generate_speech in *. rewrite Hr in Hout.
  destruct (snd (serve api generate_content (service w)
                   (map request_for chunks))) as [ds |]; [| discriminate].
  destruct Ht as [Ht Hl]. cbn [option_map app] in Hout.
  injection Hout as <-. unfold len. rewrite Hl. repeat split; trivial.
Qed.

Lemma generate_speech_trace_witness :
  let answer := fun (_ : unit) (_ : request) => (tt, Some [x00; x01]) in
  let chunks := [of_string "ab" ++ marker; of_string "cd" ++ marker] in
  let w := {| service := tt; trace := [] |} in
  len [[x00; x01]; [x00; x01]] = len chunks
  /\ trace (fst (generate_speech unit answer chunks w))
     = trace w ++ passes_events 0 chunks
  /\ requests_of (passes_events 0 chunks) = map request_for chunks
  /\ seconds_slept (passes_events 0 chunks) = 120 * len chunks.
Proof.
  cbv zeta.
  apply (generate_speech_trace unit
           (fun (_ : unit) (_ : request) => (tt, Some [x00; x01]))).
  reflexivity.
Defined.

(** X13.  When a call fails, the run ends at that call: the chunks before
    it were requested and slept on as usual, the last events are the line
    and the request of the failing chunk, no pause follows, the cell that
    saves the file does not run, and nothing is exported. *)
Theorem generate_speech_failure (api : Type)
  (generate_content : api -> request -> api * option bytes)
  (chunks : list str) (w : world api) :
  snd (generate_speech api generate_content chunks w) = None ->
  let w' := fst (generate_speech api generate_content chunks w) in
  (exists (k : nat) (chunk : str),
      nth_error chunks k = Some chunk
      /\ trace w'
         = trace w ++ passes_events 0 (firstn k chunks)
           ++ [Printed (progress_line (Z.of_nat k));
               Requested (request_for chunk)])
  /\ speech_to_file api generate_content chunks w = (w', None)
  /\ exports_of (trace w') = exports_of (trace w).
Proof.
  intros Hnone. cbv zeta.
  destruct (for_each_chunk_run api generate_content chunks 0 [] w)
    as (_ & Hr & Ht).
  unfold generate_speech in *. rewrite Hr in Hnone.
  destruct (snd (serve api generate_content (service w)
                   (map request_for chunks))) as [ds |]; [discriminate |].
  destruct Ht as (k & chunk & Hk & Ht). rewrite Z.add_0_l in Ht.
  split; [| split].
  - now exists k, chunk.
  - unfold speech_to_file, bind, generate_speech.
    destruct (for_each_chunk api generate_content 0 chunks [] w) as [w1 r1].
    cbn [fst snd option_map] in *. now rewrite Hr.
  - rewrite Ht, !exports_of_app.
    destruct (passes_events_summary (firstn k chunks) 0) as (_ & _ & ->).
    cbn. now rewrite app_nil_r.
Qed.

Lemma generate_speech_failure_witness :
  let once := fun (n : nat) (_ : request) =>
                (S n, if (n <? 1)%nat then Some [x00] else None) in
  let chunks := [of_string "ab" ++ marker; of_string "cd" ++ marker] in
  let w := {| service := 0%nat; trace := [] |} in
  let w' := fst (generate_speech nat once chunks w) in
  (exists (k : nat) (chunk : str),
      nth_error chunks k = Some chunk
      /\ trace w'
         = trace w ++ passes_events 0 (firstn k chunks)
           ++ [Printed (progress_line (Z.of_nat k));
               Requested (request_for chunk)])
  /\ speech_to_file nat once chunks w = (w', None)
  /\ exports_of (trace w') = exports_of (trace w).
Proof.
  cbv zeta.
  apply (generate_speech_failure nat
           (fun (n : nat) (_ : request) =>
              (S n, if (n <? 1)%nat then Some [x00] else None))).
  reflexivity.
Defined.

(** X14.  With the defaults of the chunker (7000 tokens of 4 characters),
    the contents of every request, prompt and separator included, have at
    most 28052 characters: 7013 tokens at 4 characters each, below the 8000
    tokens the notebook gives as the limit of the service. *)
Theorem request_contents_bounded (content : str) :
  exists chunks,
    returns content 7000 4 chunks
    /\ Forall (fun chunk => len (contents (request_for chunk)) <= 28052)
         chunks.
Proof.
  assert (1 <= 7000 * 4) as Hmc by lia.
  destruct (returned_bodies_bounded content 7000 4 Hmc)
    as [chunks [Hret Hall]].
  exists chunks. split; trivial.
  eapply Forall_impl; [| exact Hall].
  intros chunk (body & [-> _] & Hlen). cbn [request_for contents].
  rewrite !len_app, len_prompt.
  change (len (of_string ": ")) with 2. change (len marker) with 2. lia.
Qed.

(** X15.  From the text to the file, when no call fails and every answer
    is a byte buffer: the run prints, requests and sleeps once for each
    chunk; there are [ceil(len(content) / 28000)] answers, and the run has
    slept 120 seconds for each.  When the answers together have an even
    number of bytes (whole 16-bit samples), the last cell then exports one
    file, a mono segment at 24000 Hz whose audio is the answers put one
    after the other in the order of the chunks.  When they have an odd
    number of bytes, the last cell raises after all the calls and pauses,
    and no file is exported. *)
Theorem speech_to_file_exports (api : Type)
  (generate_content : api -> request -> api * option bytes)
  (content : str) (chunks : list str) (w : world api)
  (s' : api) (buffers : list bytes) :
  returns content 7000 4 chunks ->
  serve api generate_content (service w) (map request_for chunks)
  = (s', Some buffers) ->
  let export :=
    {| exported := {| data := concat buffers; sample_width := 2;
                      frame_rate := 24000; channels := 1 |};
       out_file := file_name; format := "mp3" |} in
  speech_to_file api generate_content chunks w
  = (if len (concat buffers) mod 2 =? 0
     then ({| service := s';
              trace := trace w ++ passes_events 0 chunks
                       ++ [Exported export] |},
           Some tt)
     else ({| service := s'; trace := trace w ++ passes_events 0 chunks |},
           None))
  /\ len buffers = (len content + 27999) / 28000
  /\ seconds_slept (passes_events 0 chunks)
     = 120 * ((len content + 27999) / 28000).
Proof.
  intros Hret Hserve. cbv zeta.
  destruct (for_each_chunk_run api generate_content chunks 0 [] w)
    as (Hs & Hr & Ht).
  rewrite Hserve in Hs, Hr, Ht. cbn [fst snd option_map app] in Hs, Hr, Ht.
  destruct Ht as [Ht Hl].
  assert (len chunks = (len content + 27999) / 28000) as Hcount.
  { assert (1 <= 7000 * 4) as Hmc by lia.
    destruct (split_text_to_chunks_spec content 7000 4 Hmc)
      as [out [Hrun Hout]].
    assert (out = chunks) as <-
        by (eapply returns_deterministic; [eexists; exact Hrun | exact Hret]).
    assert (1 <= Z.to_nat (7000 * 4))%nat as Hw by lia.
    rewrite (chunks_of_count _ _ _ Hw Hout).
    change (Z.of_nat (Z.to_nat (7000 * 4))) with 28000. f_equal. lia. }
  destruct (passes_events_summary chunks 0) as (Hsl & _ & _).
  split; [| split].
  - unfold speech_to_file, bind, generate_speech, save_cell.
    destruct (for_each_chunk api generate_content 0 chunks [] w) as [w1 r1].
    cbn [fst snd] in *. subst r1 s'.
    rewrite save_mp3_file_joined, AudioSegment_init_plain by discriminate.
    change (2 * 1) with 2.
    destruct (len (concat buffers) mod 2 =? 0); cbn [option_map].
    + unfold emit. rewrite Ht, <- app_assoc. reflexivity.
    + unfold raise. rewrite <- Ht. now destruct w1.
  - unfold len in *. now rewrite Hl.
  - now rewrite Hsl, Hcount.
Qed.

Lemma speech_to_file_exports_witness :
  let answer := fun (_ : unit) (_ : request) => (tt, Some [x00; x01]) in
  let content := of_string "ab cd" in
  let chunks := [of_string "ab cd" ++ marker] in
  let w := {| service := tt; trace := [] |} in
  let export :=
    {| exported := {| data := [x00; x01]; sample_width := 2;
                      frame_rate := 24000; channels := 1 |};
       out_file := file_name; format := "mp3" |} in
  speech_to_file unit answer chunks w
  = ({| service := tt;
        trace := trace w ++ passes_events 0 chunks ++ [Exported export] |},
     Some tt)
  /\ len [[x00; x01]] = (len content + 27999) / 28000
  /\ seconds_slept (passes_events 0 chunks)
     = 120 * ((len content + 27999) / 28000).
Proof.
  cbv zeta.
  apply (speech_to_file_exports unit
           (fun (_ : unit) (_ : request) => (tt, Some [x00; x01]))
           (of_string "ab cd") [of_string "ab cd" ++ marker]
           {| service := tt; trace := [] |} tt [[x00; x01]]).
  - exists 2%nat. reflexivity.
  - reflexivity.
Defined.

(** A service that answers one byte: the call is made and slept on, then
    the last cell raises and no file is exported. *)
Example one_byte_answer_exports_nothing :
  let answer := fun (_ : unit) (_ : request) => (tt, Some [x00]) in
  let chunks := [of_string "ab cd" ++ marker] in
  speech_to_file unit answer chunks {| service := tt; trace := [] |}
  = ({| service := tt; trace := passes_events 0 chunks |}, None).
Proof. reflexivity. Qed.

(** X16.  An empty text costs no call: the chunker returns no chunk, the
    loop sends no request and does not sleep, and the last cell still
    exports a file, with no audio in it. *)
Theorem empty_content_exports_silence (api : Type)
  (generate_content : api -> request -> api * option bytes) (w : world api) :
  returns [] 7000 4 []
  /\ exists export,
       speech_to_file api generate_content [] w
       = ({| service := service w; trace := trace w ++ [Exported export] |},
          Some tt)
       /\ data (exported export) = []
       /\ out_file export = file_name.
Proof.
  split; [now exists 1%nat |].
  eexists. split; [reflexivity |]. split; reflexivity.
Qed.
